(** * lancet/slice: [UniqueByParallel]

    A shallow embedding of [slice/slice_parallel.go] and the properties of
    its four stages: the clamping of the thread count, the partition of the
    input into chunks, the per-chunk deduplication run by the worker
    goroutines, and the final merge keyed by Go's built-in equality. *)

From stdpp Require Import base option list gmap strings.

#[local] Set Warnings "-clear-no-such-hyp".

(** ** Outcomes of a Go call *)

(** Run-time panics the Go runtime raises by itself in this function. *)
Inductive runtime_error : Set :=
  | DivideByZero      (* integer divide by zero *)
  | SliceBounds       (* slice bounds out of range *)
  | IndexOutOfRange.  (* index out of range *)

(** What a caller of a Go function can observe.
    - [Returns v]: the call returns [v].
    - [Panics e]: a run-time panic is raised on the goroutine of the caller
      (it unwinds the caller's stack and the caller may recover it).
    - [Crashes]: a panic was raised inside a goroutine started with [go]
      and nothing in that goroutine recovers it; the Go runtime then prints
      the panic and exits the whole program. No caller can recover it.
    - [Unfinished]: the iteration budget of a loop of the model ran out. *)
Inductive outcome (A : Type) : Type :=
  | Returns (v : A)
  | Panics (e : runtime_error)
  | Crashes
  | Unfinished.
Arguments Returns {A} v.
Arguments Panics {A} e.
Arguments Crashes {A}.
Arguments Unfinished {A}.

Global Instance outcome_ret : MRet outcome := λ A v, Returns v.
Global Instance outcome_bind : MBind outcome := λ A B f m,
  match m with
  | Returns v => f v
  | Panics e => Panics e
  | Crashes => Crashes
  | Unfinished => Unfinished
  end.

(** A computation run inside a goroutine started with [go]: [None] is a
    panic in it, which nothing recovers. *)
Definition in_goroutine {A : Type} (o : option A) : outcome A :=
  match o with
  | Some v => Returns v
  | None => Crashes
  end.

(** Two outcomes of the same kind, with related values when they return. *)
Definition outcome_rel {A B : Type} (R : A → B → Prop)
    (r : outcome A) (o : outcome B) : Prop :=
  match r, o with
  | Returns a, Returns b => R a b
  | Panics e, Panics e' => e = e'
  | Crashes, Crashes => True
  | Unfinished, Unfinished => True
  | _, _ => False
  end.

(** ** Go's [int] (64 bits, two's complement) *)
Module GoInt.
Local Open Scope Z_scope.

Definition min_int : Z := - 2 ^ 63.
Definition max_int : Z := 2 ^ 63 - 1.

(** The value an [int] holds after an operation whose exact result is [z]. *)
Definition wrap (z : Z) : Z := (z + 2 ^ 63) mod 2 ^ 64 - 2 ^ 63.

Definition add (a b : Z) : Z := wrap (a + b).
Definition sub (a b : Z) : Z := wrap (a - b).

(** [a / b]: truncated division; a zero divisor is a run-time panic. *)
Definition quo (a b : Z) : outcome Z :=
  if b =? 0 then Panics DivideByZero else Returns (wrap (a ÷ b)).
End GoInt.

(** ** The chunk deduplicator *)
Section removeDuplicate.
Context {T : Type}.

(** A comparator is a Go function value: a call of it either returns a
    boolean or panics ([None]). *)
Definition comparator_fn : Type := T → T → option bool.

(** A comparator that never panics. *)
Definition total (cmp : T → T → bool) : comparator_fn :=
  λ item other, Some (cmp item other).

(** The inner loop: [seen] after
    [for _, r := range result { if comparator(item, r) { seen = true; break } }]. *)
Fixpoint seen_in (comparator : comparator_fn) (item : T) (result : list T)
    : option bool :=
  match result with
  | [] => Some false
  | r :: result =>
      b ← comparator item r;
      if b : bool then Some true else seen_in comparator item result
  end.

(** The outer loop [for _, item := range items], with the local [result]. *)
Fixpoint removeDuplicate_loop (comparator : comparator_fn)
    (items result : list T) : option (list T) :=
  match items with
  | [] => Some result
  | item :: items =>
      seen ← seen_in comparator item result;
      removeDuplicate_loop comparator items
        (if seen : bool then result else result ++ [item])
  end.

Definition removeDuplicate (items : list T) (comparator : comparator_fn)
    : option (list T) :=
  removeDuplicate_loop comparator items [].

(** The deduplicator in the words of the specification: each element is
    tested against every element of the local result list; it is
    discarded when some test succeeds and appended otherwise. *)
Definition dedupe_step (cmp : T → T → bool) (result : list T) (x : T)
    : list T :=
  if existsb (cmp x) result then result else result ++ [x].

Definition dedupeChunk (chunk : list T) (cmp : T → T → bool) : list T :=
  foldl (dedupe_step cmp) [] chunk.
End removeDuplicate.
Arguments comparator_fn : clear implicits.

(** ** The function [UniqueByParallel] *)
Section UniqueByParallel.
(** [T comparable]: the element type has Go's built-in equality [==] and
    can key a map. *)
Context {T : Type} `{Countable T}.

(** [runtime.NumCPU()]: the number of logical CPUs, at least one. *)
Variable NumCPU : positive.

(** The order in which the worker goroutines get to send on [resultCh]:
    at step [k], with [n] workers still to send, the one at position
    [sched k mod n] among them sends next. Every function is a schedule,
    and every order of arrival comes from one. *)
Variable sched : nat → nat.

(** [len(slice)] *)
Definition len {A : Type} (s : list A) : Z := Z.of_nat (length s).

(** [s[lo:hi]] on a slice whose capacity is its length; the bounds are
    checked at run time. *)
Definition slice_expr (s : list T) (lo hi : Z) : outcome (list T) :=
  if decide (0 ≤ lo ∧ lo ≤ hi ∧ hi ≤ len s)%Z
  then Returns (take (Z.to_nat (hi - lo)) (drop (Z.to_nat lo) s))
  else Panics SliceBounds.

(** Lines 18-27: the value of [numOfThreads] after the two clamps,
    for an input of length [n]. *)
Definition effectiveThreads (n numOfThreads : Z) : Z :=
  let numOfThreads :=
    if (numOfThreads <=? 0)%Z then 1%Z
    else if (numOfThreads >? n)%Z then n
    else numOfThreads in
  let maxThreads := Z.pos NumCPU in
  if (numOfThreads >? maxThreads)%Z then maxThreads else numOfThreads.

(** Line 46. *)
Definition chunkSize (n numOfThreads : Z) : outcome Z :=
  GoInt.quo (GoInt.sub (GoInt.add n numOfThreads) 1) numOfThreads.

(** Lines 48-55: [for i := 0; i < len(slice); i += chunkSize], started
    at [i] with the chunks appended so far; [fuel] bounds the number of
    iterations. *)
Fixpoint chunks_loop (fuel : nat) (slice : list T) (chunkSize i : Z)
    (chunks : list (list T)) : outcome (list (list T)) :=
  if (i <? len slice)%Z then
    match fuel with
    | O => Unfinished
    | S fuel =>
        let end_ := GoInt.add i chunkSize in
        let end_ := if (end_ >? len slice)%Z then len slice else end_ in
        chunk ← slice_expr slice i end_;
        chunks_loop fuel slice chunkSize (GoInt.add i chunkSize)
          (chunks ++ [chunk])
    end
  else Returns chunks.

(** The partitioner: chunk size and chunks for [numOfThreads] threads.
    The loop gets as many iterations as the slice has elements. *)
Definition partition (slice : list T) (numOfThreads : Z)
    : outcome (list (list T)) :=
  chunkSize ← chunkSize (len slice) numOfThreads;
  chunks_loop (length slice) slice chunkSize 0 [].

(** Lines 57-60. *)
Record resultChunk : Type := { index : nat; data : list T }.

(** Lines 66-69: the body of the goroutine of chunk [index]; [None] when
    the comparator panics in it. *)
Definition worker (comparator : comparator_fn T) (index : nat)
    (chunk : list T) : option resultChunk :=
  data ← removeDuplicate chunk comparator;
  Some {| index := index; data := data |}.

(** Lines 64-70: one goroutine per chunk; the values they send, listed by
    chunk, when none of them panics. *)
Definition spawn (chunks : list (list T)) (comparator : comparator_fn T)
    : option (list resultChunk) :=
  mapM id (imap (worker comparator) chunks).

(** The order in which [n] values not yet sent arrive on [resultCh]. *)
Fixpoint arrivals {A : Type} (step n : nat) (unsent : list A) : list A :=
  match n with
  | O => []
  | S n =>
      let k := sched step `mod` length unsent in
      match unsent !! k with
      | Some r => r :: arrivals (S step) n (delete k unsent)
      | None => []
      end
  end.

(** Line 79: [results[r.index] = r.data], bounds-checked. *)
Definition store (results : list (list T)) (r : resultChunk)
    : outcome (list (list T)) :=
  if decide (index r < length results)
  then Returns (<[index r := data r]> results)
  else Panics IndexOutOfRange.

(** Lines 78-80: [for r := range resultCh]. *)
Fixpoint collect (received : list resultChunk) (results : list (list T))
    : outcome (list (list T)) :=
  match received with
  | [] => Returns results
  | r :: received => results ← store results r; collect received results
  end.

(** Lines 61-80: fan-out, barrier and fan-in. The goroutine of line 66
    defers [wg.Done()] and nothing else, so a panic of the comparator in
    it is not recovered and takes the program down. *)
Definition dispatch (chunks : list (list T)) (comparator : comparator_fn T)
    : outcome (list (list T)) :=
  match spawn chunks comparator with
  | None => Crashes
  | Some sent =>
      collect (arrivals 0 (length sent) sent) (replicate (length chunks) [])
  end.

(** Lines 86-91: the inner loop of the merge over one chunk, on the pair
    of [seen] and [result]. A key absent from a Go map reads as [false]. *)
Fixpoint merge_chunk (chunk : list T) (seen : gmap T bool) (result : list T)
    : gmap T bool * list T :=
  match chunk with
  | [] => (seen, result)
  | item :: chunk =>
      if negb (default false (seen !! item))
      then merge_chunk chunk (<[item := true]> seen) (result ++ [item])
      else merge_chunk chunk seen result
  end.

(** Lines 85-93: the outer loop [for _, chunk := range results]. *)
Fixpoint merge_loop (results : list (list T)) (seen : gmap T bool)
    (result : list T) : gmap T bool * list T :=
  match results with
  | [] => (seen, result)
  | chunk :: results =>
      let '(seen, result) := merge_chunk chunk seen result in
      merge_loop results seen result
  end.

(** Lines 82-95. *)
Definition merge (results : list (list T)) : list T :=
  (merge_loop results ∅ []).2.

Definition UniqueByParallel (slice : list T) (numOfThreads : Z)
    (comparator : comparator_fn T) : outcome (list T) :=
  let numOfThreads := effectiveThreads (len slice) numOfThreads in
  chunks ← partition slice numOfThreads;
  results ← dispatch chunks comparator;
  Returns (merge results).
End UniqueByParallel.

(** ** The stages in the words of the specification *)
Section Specification.
Context {T : Type} `{Countable T}.

(** [ceil(a / b)] *)
Definition ceil_div (a b : Z) : Z := ((a + b - 1) / b)%Z.

(** One pass with a membership set: an element is emitted the first time
    it is seen and skipped afterwards. *)
Fixpoint emit (seen : gset T) (l : list T) : list T :=
  match l with
  | [] => []
  | x :: l =>
      if decide (x ∈ seen) then emit seen l
      else x :: emit ({[x]} ∪ seen) l
  end.

(** The Go map [seen] holds [true] exactly at the members of the set. *)
Definition marks (seen : gmap T bool) (marked : gset T) : Prop :=
  ∀ x, default false (seen !! x) = true ↔ x ∈ marked.

(** The merger: one pass over the concatenation of the chunk results,
    taken in ascending chunk index. *)
Definition merge_spec (results : list (list T)) : list T :=
  emit ∅ (concat results).
End Specification.

(** Case-insensitive comparison of strings (ASCII letters). *)
Definition lower (c : Ascii.ascii) : Ascii.ascii :=
  let n := Ascii.nat_of_ascii c in
  if (65 <=? n) && (n <=? 90) then Ascii.ascii_of_nat (n + 32) else c.

Fixpoint to_lower (s : string) : string :=
  match s with
  | EmptyString => EmptyString
  | String c s => String (lower c) (to_lower s)
  end.

Definition equalFold (a b : string) : bool :=
  bool_decide (to_lower a = to_lower b).

(** ** The same function on slices in memory

    The model above works on the values a slice holds. To speak of what the
    call writes, this one keeps the backing arrays in a heap and passes
    slice headers around, as the Go code does: the chunks are windows on the
    array of the input, [append] writes in place when the capacity allows
    and allocates otherwise. *)
Module Mem.
(** Locations of backing arrays, and the heap that holds the arrays. *)
Abbreviation loc := positive (only parsing).
Abbreviation heap T := (gmap positive (list T)) (only parsing).

Section Mem.
Context {T : Type} `{Countable T}.

(** The zero value of [T], which fills the unused capacity of an array. *)
Variable zero : T.

(** The capacity [append] asks for when it has to grow a slice of a given
    capacity (a decision of the runtime). *)
Variable growcap : nat → nat.

Variable NumCPU : positive.
Variable sched : nat → nat.

(** A slice header: backing array ([None] for a slice without one, such
    as [nil] and [[]T{}]), offset of the first element in it, length and
    capacity. *)
Record slice : Type := { base : option loc; off : nat; slen : nat; scap : nat }.

Definition nil_slice : slice := {| base := None; off := 0; slen := 0; scap := 0 |}.

Definition len (s : slice) : Z := Z.of_nat (slen s).

(** The elements a slice holds. *)
Definition view (σ : heap T) (s : slice) : list T :=
  match base s with
  | Some a => take (slen s) (drop (off s) (default [] (σ !! a)))
  | None => []
  end.

(** Computations that read and write the heap. *)
Definition M (A : Type) : Type := heap T → heap T * outcome A.

Definition ret {A : Type} (v : A) : M A := λ σ, (σ, Returns v).

Definition bind {A B : Type} (m : M A) (f : A → M B) : M B := λ σ,
  match m σ with
  | (σ', Returns v) => f v σ'
  | (σ', Panics e) => (σ', Panics e)
  | (σ', Crashes) => (σ', Crashes)
  | (σ', Unfinished) => (σ', Unfinished)
  end.

Definition lift {A : Type} (o : outcome A) : M A := λ σ, (σ, o).

(** [s[i]] *)
Definition load (s : slice) (i : nat) : M T := λ σ,
  match (if decide (i < slen s)
         then a ← base s; cells ← σ !! a; cells !! (off s + i)
         else None) with
  | Some x => (σ, Returns x)
  | None => (σ, Panics IndexOutOfRange)
  end.

(** [append(s, x)] *)
Definition append (s : slice) (x : T) : M slice := λ σ,
  match base s with
  | Some a =>
      if decide (slen s < scap s) then
        (alter (λ cells, <[off s + slen s := x]> cells) a σ,
         Returns {| base := Some a; off := off s;
                    slen := S (slen s); scap := scap s |})
      else
        let c := S (slen s) `max` growcap (scap s) in
        let a' := fresh (dom σ) in
        (<[a' := view σ s ++ x :: replicate (c - S (slen s)) zero]> σ,
         Returns {| base := Some a'; off := 0; slen := S (slen s); scap := c |})
  | None =>
      let c := S (slen s) `max` growcap (scap s) in
      let a' := fresh (dom σ) in
      (<[a' := view σ s ++ x :: replicate (c - S (slen s)) zero]> σ,
       Returns {| base := Some a'; off := 0; slen := S (slen s); scap := c |})
  end.

(** [s[lo:hi]] *)
Definition slice_expr (s : slice) (lo hi : Z) : outcome slice :=
  if decide (0 ≤ lo ∧ lo ≤ hi ∧ hi ≤ Z.of_nat (scap s))%Z
  then Returns {| base := base s; off := off s + Z.to_nat lo;
                  slen := Z.to_nat (hi - lo); scap := scap s - Z.to_nat lo |}
  else Panics SliceBounds.

(** A call of the comparator from a worker goroutine. *)
Definition call (comparator : comparator_fn T) (item other : T) : M bool :=
  lift (in_goroutine (comparator item other)).

(** [for _, r := range result], from index [j] with [n] elements to go. *)
Fixpoint seen_in (comparator : comparator_fn T) (item : T) (result : slice)
    (j n : nat) : M bool :=
  match n with
  | O => ret false
  | S n =>
      bind (load result j) (λ r,
      bind (call comparator item r) (λ b,
      if b : bool then ret true else seen_in comparator item result (S j) n))
  end.

(** [for _, item := range items], from index [k] with [n] elements to go. *)
Fixpoint removeDuplicate_loop (comparator : comparator_fn T) (items : slice)
    (k n : nat) (result : slice) : M slice :=
  match n with
  | O => ret result
  | S n =>
      bind (load items k) (λ item,
      bind (seen_in comparator item result 0 (slen result)) (λ seen,
      bind (if seen : bool then ret result else append result item) (λ result,
      removeDuplicate_loop comparator items (S k) n result)))
  end.

(** [var result []T] is the nil slice. *)
Definition removeDuplicate (items : slice) (comparator : comparator_fn T)
    : M slice :=
  removeDuplicate_loop comparator items 0 (slen items) nil_slice.

Fixpoint chunks_loop (fuel : nat) (s : slice) (chunkSize i : Z)
    (chunks : list slice) : outcome (list slice) :=
  if (i <? len s)%Z then
    match fuel with
    | O => Unfinished
    | S fuel =>
        let end_ := GoInt.add i chunkSize in
        let end_ := if (end_ >? len s)%Z then len s else end_ in
        chunk ← slice_expr s i end_;
        chunks_loop fuel s chunkSize (GoInt.add i chunkSize) (chunks ++ [chunk])
    end
  else Returns chunks.

Definition partition (s : slice) (numOfThreads : Z) : outcome (list slice) :=
  chunkSize ← chunkSize (len s) numOfThreads;
  chunks_loop (slen s) s chunkSize 0 [].

Record resultChunk : Type := { index : nat; data : slice }.

Definition worker (comparator : comparator_fn T) (job : nat * slice)
    : M resultChunk :=
  bind (removeDuplicate job.2 comparator) (λ data,
  ret {| index := job.1; data := data |}).

(** The workers, each run to its end, in the order in which their values
    arrive. *)
Fixpoint run (comparator : comparator_fn T) (jobs : list (nat * slice))
    : M (list resultChunk) :=
  match jobs with
  | [] => ret []
  | job :: jobs =>
      bind (worker comparator job) (λ r,
      bind (run comparator jobs) (λ received,
      ret (r :: received)))
  end.

Definition store (results : list slice) (r : resultChunk)
    : outcome (list slice) :=
  if decide (index r < length results)
  then Returns (<[index r := data r]> results)
  else Panics IndexOutOfRange.

Fixpoint collect (received : list resultChunk) (results : list slice)
    : outcome (list slice) :=
  match received with
  | [] => Returns results
  | r :: received => results ← store results r; collect received results
  end.

Definition dispatch (chunks : list slice) (comparator : comparator_fn T)
    : M (list slice) :=
  bind (run comparator (arrivals sched 0 (length chunks) (imap pair chunks)))
    (λ received,
  lift (collect received (replicate (length chunks) nil_slice))).

Fixpoint merge_chunk (chunk : slice) (j n : nat) (seen : gmap T bool)
    (result : slice) : M (gmap T bool * slice) :=
  match n with
  | O => ret (seen, result)
  | S n =>
      bind (load chunk j) (λ item,
      if negb (default false (seen !! item))
      then bind (append result item) (λ result,
           merge_chunk chunk (S j) n (<[item := true]> seen) result)
      else merge_chunk chunk (S j) n seen result)
  end.

Fixpoint merge_loop (results : list slice) (seen : gmap T bool)
    (result : slice) : M (gmap T bool * slice) :=
  match results with
  | [] => ret (seen, result)
  | chunk :: results =>
      bind (merge_chunk chunk 0 (slen chunk) seen result) (λ st,
      merge_loop results st.1 st.2)
  end.

(** [result := []T{}] has no backing array either. *)
Definition merge (results : list slice) : M slice :=
  bind (merge_loop results ∅ nil_slice) (λ st, ret st.2).

Definition UniqueByParallel (s : slice) (numOfThreads : Z)
    (comparator : comparator_fn T) : M slice :=
  let numOfThreads := effectiveThreads NumCPU (len s) numOfThreads in
  bind (lift (partition s numOfThreads)) (λ chunks,
  bind (dispatch chunks comparator) (λ results,
  merge results)).

(** A header that fits its backing array. *)
Definition wf (σ : heap T) (s : slice) : Prop :=
  slen s ≤ scap s
  ∧ match base s with
    | Some a => ∃ cells, σ !! a = Some cells ∧ off s + scap s ≤ length cells
    | None => scap s = 0
    end.

(** A slice whose backing array, if any, is none of the arrays [D]. *)
Definition private (D : gset loc) (s : slice) : Prop :=
  ∀ a, base s = Some a → a ∉ D.
(** A slice that fits the heap and holds the list [l]. *)
Definition shows (σ : heap T) (s : slice) (l : list T) : Prop :=
  wf σ s ∧ view σ s = l.

(** A slice that moreover shares no array with [D]. *)
Definition holds (σ : heap T) (D : gset loc) (s : slice) (l : list T) : Prop :=
  wf σ s ∧ private D s ∧ view σ s = l.
End Mem.
End Mem.

(** ** The calls a worker makes

    The two loops of [removeDuplicate] once more, for a comparator that
    does not panic, with a counter that goes up at every evaluation of
    [comparator(item, r)]. *)
Section removeDuplicate_calls.
Context {T : Type}.

Fixpoint seen_in_calls (cmp : T → T → bool) (item : T) (result : list T)
    (calls : nat) : bool * nat :=
  match result with
  | [] => (false, calls)
  | r :: result =>
      if cmp item r then (true, S calls)
      else seen_in_calls cmp item result (S calls)
  end.

Fixpoint removeDuplicate_calls (cmp : T → T → bool) (items result : list T)
    (calls : nat) : list T * nat :=
  match items with
  | [] => (result, calls)
  | item :: items =>
      let '(seen, calls) := seen_in_calls cmp item result calls in
      removeDuplicate_calls cmp items
        (if seen : bool then result else result ++ [item]) calls
  end.
End removeDuplicate_calls.

(** ** The package [stream]

    The sequential stream of the repository: a struct around a slice.
    Predicates and mappers are functions that return. *)
Module Stream.
(** What a call does: it returns, it panics with a message, or the
    runtime ends the program with a fatal error (out of memory), which is
    no panic and cannot be recovered. *)
Inductive result (A : Type) : Type :=
  | Done (v : A)
  | Panic (msg : string)
  | Fatal (msg : string).
Arguments Done {A} v.
Arguments Panic {A} msg.
Arguments Fatal {A} msg.

Definition result_bind {A B : Type} (m : result A) (f : A → result B)
    : result B :=
  match m with
  | Done v => f v
  | Panic msg => Panic msg
  | Fatal msg => Fatal msg
  end.

(** What [gob.Encoder.Encode] does with a value: it writes its encoding,
    it returns an error, or it panics by itself (as on a nil pointer) with
    a message of its own. *)
Inductive encoding : Type :=
  | Encoded (k : string)
  | EncodeError
  | EncodePanic (msg : string).

Section Stream.
Context {T : Type}.

(** [type stream[T any] struct { source []T }] *)
Record stream : Type := { source : list T }.

Definition FromSlice (source : list T) : stream := {| source := source |}.

Definition Of (elems : list T) : stream := FromSlice elems.

Definition Count (s : stream) : Z := len (source s).

Definition ToSlice (s : stream) : list T := source s.

(** [Filter]: the loop over [s.source] with the local [source]. *)
Fixpoint Filter_loop (predicate : T → bool) (items source : list T) : list T :=
  match items with
  | [] => source
  | v :: items =>
      Filter_loop predicate items
        (if predicate v then source ++ [v] else source)
  end.

Definition Filter (s : stream) (predicate : T → bool) : stream :=
  FromSlice (Filter_loop predicate (source s) []).

(** [source[i] = x], bounds-checked. *)
Definition set_index (source : list T) (i : nat) (x : T) : result (list T) :=
  if decide (i < length source) then Done (<[i := x]> source)
  else Panic "index out of range".

(** [Map]: [for i, v := range s.source { source[i] = mapper(v) }], from
    index [i]. *)
Fixpoint Map_loop (mapper : T → T) (i : nat) (items source : list T)
    : result (list T) :=
  match items with
  | [] => Done source
  | v :: items =>
      result_bind (set_index source i (mapper v)) (λ source,
      Map_loop mapper (S i) items source)
  end.

(** [make([]T, s.Count(), s.Count())] is filled with the zero value of
    [T]. *)
Definition Map (zero : T) (s : stream) (mapper : T → T) : result stream :=
  result_bind
    (Map_loop mapper 0 (source s) (replicate (length (source s)) zero))
    (λ source, Done (FromSlice source)).

(** [hashKey]: the gob encoding of a value as a string; [encode] is
    [gob.Encoder.Encode]. An error of [Encode] makes [hashKey] panic with
    its own message; a panic of [Encode] goes through as it is. *)
Definition hashKey (encode : T → encoding) (data : T) : result string :=
  match encode data with
  | Encoded k => Done k
  | EncodeError => Panic "stream.hashKey: get hashkey failed"
  | EncodePanic msg => Panic msg
  end.

(** [Distinct]: the loop over [s.source] with the map [distinct] and the
    local [source]; [_, ok := distinct[k]] tests the presence of the key. *)
Fixpoint Distinct_loop (encode : T → encoding) (items : list T)
    (distinct : gmap string bool) (source : list T) : result (list T) :=
  match items with
  | [] => Done source
  | v :: items =>
      result_bind (hashKey encode v) (λ k,
      match distinct !! k with
      | Some _ => Distinct_loop encode items distinct source
      | None =>
          Distinct_loop encode items (<[k := true]> distinct) (source ++ [v])
      end)
  end.

Definition Distinct (encode : T → encoding) (s : stream) : result stream :=
  result_bind (Distinct_loop encode (source s) ∅ [])
    (λ source, Done (FromSlice source)).

(** The elements of a list that are the first with their key, given the
    keys met before. *)
Fixpoint first_by (key : T → string) (seen : gset string) (l : list T)
    : list T :=
  match l with
  | [] => []
  | x :: l =>
      if decide (key x ∈ seen) then first_by key seen l
      else x :: first_by key ({[key x]} ∪ seen) l
  end.

(** The key of a value that can be encoded. *)
Definition key_of (encode : T → encoding) (x : T) : string :=
  match encode x with
  | Encoded k => k
  | _ => ""
  end.
End Stream.
Arguments stream : clear implicits.

(** [FromRange] at [T = int]. *)
Definition int_mul (a b : Z) : Z := GoInt.wrap (a * b).

(** [for i := 0; i < l; i++ { source[i] = start + (T(i) * step) }] with
    [n] iterations to go. *)
Fixpoint FromRange_loop (n : nat) (start step i : Z) (source : list Z)
    : result (list Z) :=
  match n with
  | O => Done source
  | S n =>
      result_bind
        (set_index source (Z.to_nat i) (GoInt.add start (int_mul i step)))
        (λ source, FromRange_loop n start step (GoInt.add i 1) source)
  end.

(** [make([]int, l, l)]. The runtime panics on a negative length and on a
    length above [maxlen], the longest slice of [int] its size check lets
    through ([maxAlloc / 8]: [2 ^ 45] on 64-bit Linux). A length it lets
    through is then asked from the system, which has room for [room]
    elements; beyond that the program ends with a fatal error. Both bounds
    are at least one. *)
Definition make_int (maxlen room : positive) (l : Z) : result (list Z) :=
  if (l <? 0)%Z || (Z.pos maxlen <? l)%Z then
    Panic "makeslice: len out of range"
  else if (Z.pos room <? l)%Z then Fatal "runtime: out of memory"
  else Done (replicate (Z.to_nat l) 0%Z).

Definition FromRange (maxlen room : positive) (start end_ step : Z)
    : result (stream Z) :=
  if (end_ <? start)%Z then
    Panic "stream.FromRange: param start should be before param end"
  else if (step <=? 0)%Z then
    Panic "stream.FromRange: param step should be positive"
  else
    let l := GoInt.add (GoInt.wrap (GoInt.sub end_ start ÷ step)) 1 in
    result_bind (make_int maxlen room l) (λ source,
    result_bind (FromRange_loop (Z.to_nat l) start step 0 source) (λ source,
    Done (FromSlice source))).
End Stream.

(** A heap with one array of capacity eight and a slice on its first six
    cells. *)
Definition example_heap : Mem.heap Z :=
  {[ 1%positive := [1; 2; 2; 3; 1; 4; 0; 0]%Z ]}.

Definition example_slice : Mem.slice :=
  {| Mem.base := Some 1%positive; Mem.off := 0; Mem.slen := 6; Mem.scap := 8 |}.

(** * Properties *)

(** ** Integers *)
Section GoInt_facts.
Local Open Scope Z_scope.

Lemma wrap_small z : GoInt.min_int ≤ z ≤ GoInt.max_int → GoInt.wrap z = z.
Proof.
  unfold GoInt.wrap, GoInt.min_int, GoInt.max_int. intros Hz.
  rewrite Z.mod_small; lia.
Qed.

Lemma add_small a b :
  GoInt.min_int ≤ a + b ≤ GoInt.max_int → GoInt.add a b = a + b.
Proof. apply wrap_small. Qed.

Lemma sub_small a b :
  GoInt.min_int ≤ a - b ≤ GoInt.max_int → GoInt.sub a b = a - b.
Proof. apply wrap_small. Qed.

Lemma quo_small a b :
  0 ≤ a ≤ GoInt.max_int → 0 < b → GoInt.quo a b = Returns (a / b).
Proof.
  intros Ha Hb. unfold GoInt.quo.
  destruct (Z.eqb_spec b 0) as [->|_]; [lia|].
  rewrite Z.quot_div_nonneg by lia.
  rewrite wrap_small; [done|].
  pose proof (Z.div_pos a b). pose proof (Z.div_le_upper_bound a b a).
  unfold GoInt.min_int, GoInt.max_int in *. split; [lia|].
  etrans; [apply H0; nia|lia].
Qed.

Lemma ceil_div_bounds a b :
  0 < b → (ceil_div a b - 1) * b < a ≤ ceil_div a b * b.
Proof.
  intros Hb. unfold ceil_div.
  pose proof (Z.div_mod (a + b - 1) b). pose proof (Z.mod_pos_bound (a + b - 1) b).
  nia.
Qed.

Lemma ceil_div_unique a b q : 0 < b → (q - 1) * b < a ≤ q * b → ceil_div a b = q.
Proof.
  intros Hb Hq. pose proof (ceil_div_bounds a b Hb). nia.
Qed.
End GoInt_facts.

(** ** The chunk deduplicator *)
Section removeDuplicate_facts.
Context {T : Type}.
Implicit Types (cmp : T → T → bool) (comparator : comparator_fn T).
Implicit Types (items result chunk : list T).

Lemma seen_in_total cmp item result :
  seen_in (total cmp) item result = Some (existsb (cmp item) result).
Proof.
  induction result as [|r result IH]; simpl; [done|].
  unfold total at 1. simpl. destruct (cmp item r); simpl; [done|apply IH].
Qed.

Lemma removeDuplicate_loop_total cmp items result :
  removeDuplicate_loop (total cmp) items result
  = Some (foldl (dedupe_step cmp) result items).
Proof.
  revert result. induction items as [|item items IH]; intros result; simpl; [done|].
  rewrite seen_in_total. simpl. rewrite IH. done.
Qed.

(** What the loop returns extends its accumulator by a subsequence of
    the items, whatever the comparator does. *)
Lemma removeDuplicate_loop_sublist comparator items result out :
  removeDuplicate_loop comparator items result = Some out →
  ∃ kept, out = result ++ kept ∧ sublist kept items.
Proof.
  revert result. induction items as [|item items IH]; intros result; simpl.
  - intros [= <-]. exists []. by rewrite app_nil_r.
  - destruct (seen_in comparator item result) as [[]|]; simpl; [| |done].
    + intros (kept & -> & Hs)%IH. exists kept. split; [done|]. by apply sublist_cons.
    + intros (kept & -> & Hs)%IH. exists (item :: kept).
      rewrite <- app_assoc. split; [done|]. by apply sublist_skip.
Qed.

Lemma removeDuplicate_sublist comparator items out :
  removeDuplicate items comparator = Some out → sublist out items.
Proof.
  intros (kept & -> & Hs)%removeDuplicate_loop_sublist. done.
Qed.

Lemma removeDuplicate_total cmp items :
  removeDuplicate items (total cmp) = Some (dedupeChunk items cmp).
Proof. apply removeDuplicate_loop_total. Qed.

Lemma dedupeChunk_sublist cmp items : sublist (dedupeChunk items cmp) items.
Proof.
  eapply removeDuplicate_sublist, removeDuplicate_total.
Qed.

(** With a comparator that is reflexive on the items no value is kept
    twice. *)
Lemma dedupe_foldl_NoDup cmp items result :
  (∀ x, x ∈ items → cmp x x = true) →
  NoDup result → NoDup (foldl (dedupe_step cmp) result items).
Proof.
  revert result.
  induction items as [|item items IH]; intros result Hrefl Hnd; simpl; [done|].
  apply IH; [intros x Hx; apply Hrefl; by right|]. unfold dedupe_step.
  destruct (existsb (cmp item) result) eqn:Hex; [done|].
  apply NoDup_app. split_and!; [done| |apply NoDup_singleton].
  intros x Hx ->%list_elem_of_singleton.
  assert (existsb (cmp item) result = true); [|congruence].
  apply existsb_exists. exists item.
  split; [by apply list_elem_of_In|apply Hrefl; left].
Qed.

Lemma dedupeChunk_NoDup cmp items :
  (∀ x, x ∈ items → cmp x x = true) → NoDup (dedupeChunk items cmp).
Proof. intros. apply dedupe_foldl_NoDup; [done|apply NoDup_nil_2]. Qed.

(** The first element of a chunk is always kept. *)
Lemma dedupeChunk_nonempty cmp items : items ≠ [] → dedupeChunk items cmp ≠ [].
Proof.
  destruct items as [|x items]; [done|]. intros _. unfold dedupeChunk. simpl.
  unfold dedupe_step at 2. simpl.
  pose proof (removeDuplicate_loop_total cmp items [x]) as Hl.
  apply removeDuplicate_loop_sublist in Hl as (kept & -> & _). done.
Qed.
End removeDuplicate_facts.

(** [C6] The chunk deduplicator goes through the chunk in order with a
    local result list; each element is tested with the comparator against
    the elements already in the list, is discarded when a test succeeds and
    is appended otherwise; the list at the end is what the worker returns. *)
Theorem removeDuplicate_is_dedupeChunk {T : Type} (chunk : list T)
    (cmp : T → T → bool) :
  removeDuplicate chunk (total cmp) = Some (dedupeChunk chunk cmp)
  ∧ dedupeChunk [] cmp = []
  ∧ ∀ (prefix : list T) (x : T),
      dedupeChunk (prefix ++ [x]) cmp
      = if existsb (cmp x) (dedupeChunk prefix cmp)
        then dedupeChunk prefix cmp
        else dedupeChunk prefix cmp ++ [x].
Proof.
  split_and!.
  - apply removeDuplicate_total.
  - done.
  - intros prefix x. unfold dedupeChunk. by rewrite foldl_app.
Qed.

(** ** The clamps and the partitioner

    The lemmas on the partition ask for [len slice < 2 ^ 62]: the sums
    [len(slice) + numOfThreads - 1] and [i + chunkSize] then stay below
    [2 ^ 63] and do not wrap around. A slice whose elements take space is
    far shorter than that. *)
Section partition_facts.
Context {T : Type}.
Implicit Types (slice : list T) (chunks : list (list T)).
Local Open Scope Z_scope.

Lemma effectiveThreads_range NumCPU n numOfThreads :
  1 ≤ n →
  1 ≤ effectiveThreads NumCPU n numOfThreads ≤ n
  ∧ effectiveThreads NumCPU n numOfThreads ≤ Z.pos NumCPU.
Proof.
  intros Hn. unfold effectiveThreads.
  repeat case_match; lia.
Qed.

Lemma effectiveThreads_empty NumCPU numOfThreads :
  effectiveThreads NumCPU 0 numOfThreads = if decide (numOfThreads ≤ 0) then 1 else 0.
Proof.
  unfold effectiveThreads. case_decide;
  repeat case_match; lia.
Qed.

Lemma chunkSize_ceil n w :
  1 ≤ w ≤ n → n < 2 ^ 62 → chunkSize n w = Returns (ceil_div n w).
Proof.
  intros Hw Hn. unfold chunkSize, ceil_div.
  rewrite add_small by (unfold GoInt.min_int, GoInt.max_int; lia).
  rewrite sub_small by (unfold GoInt.min_int, GoInt.max_int; lia).
  apply quo_small; [unfold GoInt.max_int|]; lia.
Qed.

Lemma ceil_div_range n w : 1 ≤ w ≤ n → 1 ≤ ceil_div n w ≤ n.
Proof. intros Hw. pose proof (ceil_div_bounds n w). nia. Qed.

Lemma slice_expr_length slice lo hi chunk :
  slice_expr slice lo hi = Returns chunk → len chunk = hi - lo.
Proof.
  unfold slice_expr, len. case_decide as Hb; [|done]. intros [= <-].
  unfold len in Hb. rewrite length_take, length_drop. lia.
Qed.

(** The loop from position [i]: it returns, and the chunks it appends
    are the pieces of width [cs] of the rest of the slice. *)
Lemma chunks_loop_spec slice cs fuel :
  1 ≤ cs ≤ len slice → len slice < 2 ^ 62 →
  ∀ i chunks, 0 ≤ i < len slice + cs → len slice - i ≤ Z.of_nat fuel →
  ∃ rest,
    chunks_loop fuel slice cs i chunks = Returns (chunks ++ rest)
    ∧ concat rest = drop (Z.to_nat i) slice
    ∧ Forall (λ chunk, chunk ≠ []) rest
    ∧ len rest = ceil_div (len slice - i) cs
    ∧ ∀ (j : nat) chunk, rest !! j = Some chunk →
        slice_expr slice (i + Z.of_nat j * cs)
          (Z.min (i + (Z.of_nat j + 1) * cs) (len slice))
        = Returns chunk.
Proof.
  intros Hcs Hn. induction fuel as [|fuel IH]; intros i chunks Hi Hfuel.
  - exists []. simpl. destruct (Z.ltb_spec i (len slice)); [lia|].
    rewrite app_nil_r. split_and!; [done| |done| |done].
    + rewrite drop_ge; [done|unfold len in *; lia].
    + symmetry. apply ceil_div_unique; unfold len in *; simpl; lia.
  - simpl. destruct (Z.ltb_spec i (len slice)) as [Hlt|Hge]; last first.
    { exists []. rewrite app_nil_r. split_and!; [done| |done| |done].
      + rewrite drop_ge; [done|unfold len in *; lia].
      + symmetry. apply ceil_div_unique; unfold len in *; simpl; lia. }
    rewrite add_small by (unfold GoInt.min_int, GoInt.max_int; lia).
    set (hi := if i + cs >? len slice then len slice else i + cs).
    assert (hi = Z.min (i + cs) (len slice)) as Hhi.
    { subst hi. rewrite Z.gtb_ltb. destruct (Z.ltb_spec (len slice) (i + cs)); lia. }
    destruct (slice_expr slice i hi) as [chunk| | |] eqn:Hchunk;
      try (unfold slice_expr in Hchunk; case_decide; [done|lia]).
    simpl.
    destruct (IH (i + cs) (chunks ++ [chunk])) as (rest & Hloop & Hcat & Hne & Hlen & Hidx);
      [lia|lia|].
    exists (chunk :: rest). rewrite Hloop, <- app_assoc. simpl.
    pose proof (slice_expr_length _ _ _ _ Hchunk) as Hclen.
    split_and!.
    + done.
    + rewrite Hcat. unfold slice_expr in Hchunk. case_decide; [|done].
      injection Hchunk as <-.
      replace (Z.to_nat (i + cs)) with (Z.to_nat i + Z.to_nat cs)%nat by lia.
      rewrite <- drop_drop.
      destruct (decide (i + cs ≤ len slice)).
      * replace (Z.to_nat (hi - i)) with (Z.to_nat cs) by lia.
        apply take_drop.
      * rewrite take_ge by (rewrite length_drop; unfold len in *; lia).
        rewrite (drop_ge (drop _ _)) by (rewrite length_drop; unfold len in *; lia).
        apply app_nil_r.
    + constructor; [|done]. intros ->. unfold len in Hclen. simpl in Hclen. lia.
    + unfold len in *. simpl length. rewrite Nat2Z.inj_succ. unfold len in Hlen.
      rewrite Hlen. symmetry. apply ceil_div_unique; [lia|].
      pose proof (ceil_div_bounds (Z.of_nat (length slice) - (i + cs)) cs). nia.
    + intros [|j] c; simpl.
      * intros [= <-]. rewrite <- Hchunk. f_equal; lia.
      * intros Hj%Hidx. rewrite <- Hj. f_equal; lia.
Qed.

(** The partitioner on a non-empty slice and a thread count in range. *)
Lemma partition_spec slice w :
  1 ≤ w ≤ len slice → len slice < 2 ^ 62 →
  ∃ chunks,
    partition slice w = Returns chunks
    ∧ concat chunks = slice
    ∧ Forall (λ chunk, chunk ≠ []) chunks
    ∧ len chunks = ceil_div (len slice) (ceil_div (len slice) w)
    ∧ ∀ (j : nat) chunk, chunks !! j = Some chunk →
        slice_expr slice (Z.of_nat j * ceil_div (len slice) w)
          (Z.min ((Z.of_nat j + 1) * ceil_div (len slice) w) (len slice))
        = Returns chunk.
Proof.
  intros Hw Hn. unfold partition. rewrite chunkSize_ceil by done. simpl.
  pose proof (ceil_div_range _ _ Hw) as Hcs.
  destruct (chunks_loop_spec slice (ceil_div (len slice) w) (length slice) Hcs Hn 0 [])
    as (rest & Hloop & Hcat & Hne & Hlen & Hidx); [lia|unfold len; lia|].
  exists rest. rewrite Z.sub_0_r in Hlen. split_and!; done.
Qed.

(** Never more chunks than threads. *)
Lemma chunk_count_le n w :
  1 ≤ w ≤ n → 1 ≤ ceil_div n (ceil_div n w) ≤ w.
Proof.
  intros Hw. pose proof (ceil_div_range _ _ Hw) as Hcs.
  pose proof (ceil_div_bounds n w). pose proof (ceil_div_bounds n (ceil_div n w)).
  nia.
Qed.

(** With one thread the whole slice is the only chunk. *)
Lemma partition_one slice :
  slice ≠ [] → len slice < 2 ^ 62 → partition slice 1 = Returns [slice].
Proof.
  intros Hne Hn. assert (1 ≤ len slice) as H1.
  { destruct slice; [done|]. unfold len. simpl. lia. }
  destruct (partition_spec slice 1) as (chunks & -> & Hcat & Hnz & Hlen & _); [lia|done|].
  f_equal.
  assert (ceil_div (len slice) 1 = len slice) as Hcs by (apply ceil_div_unique; lia).
  rewrite Hcs in Hlen.
  assert (ceil_div (len slice) (len slice) = 1) as Hk by (apply ceil_div_unique; lia).
  rewrite Hk in Hlen. destruct chunks as [|c [|c' chunks]]; unfold len in Hlen; simpl in Hlen; try lia.
  simpl in Hcat. rewrite app_nil_r in Hcat. by subst.
Qed.
End partition_facts.

(** ** The dispatcher *)
Section dispatch_facts.
Context {T : Type}.
Implicit Types (chunks results : list (list T)) (comparator : comparator_fn T).
Implicit Types (sent received unsent : list (@resultChunk T)).

(** Whatever the schedule, what arrives is what was sent, in some order. *)
Lemma arrivals_Permutation {A : Type} sched n step (unsent : list A) :
  length unsent = n → arrivals sched step n unsent ≡ₚ unsent.
Proof.
  revert step unsent. induction n as [|n IH]; intros step unsent Hlen; simpl.
  - by destruct unsent.
  - assert (sched step `mod` length unsent < length unsent)%nat as Hk
      by (apply Nat.mod_upper_bound; lia).
    apply lookup_lt_is_Some_2 in Hk as [r Hr]. rewrite Hr.
    etrans; [|symmetry; apply (delete_Permutation unsent _ r Hr)].
    constructor. apply IH. rewrite length_delete by eauto. lia.
Qed.

(** Filling the array towards [target]: the slots named by the received
    values hold the target's entries, the others are untouched. *)
Lemma collect_spec (target : list (list T)) received results :
  length results = length target →
  (∀ r, r ∈ received → target !! index r = Some (data r)) →
  ∃ filled,
    collect received results = Returns filled
    ∧ length filled = length target
    ∧ ∀ i, filled !! i
           = if decide (i ∈ index <$> received) then target !! i else results !! i.
Proof.
  revert results. induction received as [|r received IH]; intros results Hlen Hr; simpl.
  - exists results. by split_and!.
  - assert (index r < length results)%nat as Hin.
    { rewrite Hlen. eapply lookup_lt_Some, Hr. left. }
    unfold store. rewrite decide_True by done. simpl.
    destruct (IH (<[index r:=data r]> results)) as (filled & -> & Hflen & Hfill).
    { by rewrite length_insert. }
    { intros r' Hr'. apply Hr. by right. }
    exists filled. split_and!; [done..|]. intros i. rewrite Hfill.
    destruct (decide (i = index r)) as [->|Hne].
    + rewrite (decide_True (P := _ ∈ _ :: _)) by left.
      case_decide; [done|]. rewrite list_lookup_insert_eq by done.
      symmetry. apply Hr. left.
    + rewrite list_lookup_insert_ne by done.
      destruct (decide (i ∈ index <$> received)) as [Hi|Hi].
      * rewrite decide_True; [done|]. simpl. by right.
      * rewrite decide_False; [done|]. simpl. by intros [?|?]%elem_of_cons.
Qed.

(** What the workers send: for chunk [i], the value tagged [i] that holds
    the worker's result. *)
Lemma spawn_Some chunks comparator sent :
  spawn chunks comparator = Some sent ↔
  length sent = length chunks
  ∧ ∀ i chunk, chunks !! i = Some chunk →
      ∃ out, removeDuplicate chunk comparator = Some out
             ∧ sent !! i = Some {| index := i; data := out |}.
Proof.
  unfold spawn. rewrite mapM_Some. split.
  - intros HF. split.
    { apply Forall2_length in HF. by rewrite length_imap in HF. }
    intros i chunk Hc.
    assert (imap (worker comparator) chunks !! i = Some (worker comparator i chunk)) as Hw.
    { by rewrite list_lookup_imap, Hc. }
    destruct (Forall2_lookup_l _ _ _ _ _ HF Hw) as (r & Hr & Heq).
    simpl in Heq. unfold worker in Heq.
    destruct (removeDuplicate chunk comparator) as [out|]; [|done].
    simpl in Heq. injection Heq as <-. eauto.
  - intros [Hlen Hall]. apply Forall2_same_length_lookup. split.
    { by rewrite length_imap. }
    intros i w r. rewrite list_lookup_imap.
    destruct (chunks !! i) as [chunk|] eqn:Hc; [|done]. simpl. intros [= <-].
    destruct (Hall _ _ Hc) as (out & Hout & Hs). rewrite Hs. intros [= <-].
    unfold worker. by rewrite Hout.
Qed.

Lemma spawn_None chunks comparator :
  spawn chunks comparator = None ↔
  ∃ i chunk, chunks !! i = Some chunk ∧ removeDuplicate chunk comparator = None.
Proof.
  unfold spawn. rewrite eq_None_not_Some, mapM_is_Some, <- Exists_Forall_neg; last first.
  { intros o. destruct o; [left; by eexists|right; by intros [??]]. }
  rewrite Exists_exists. split.
  - intros (o & [i Hi]%list_elem_of_lookup_1 & Hn). rewrite list_lookup_imap in Hi.
    destruct (chunks !! i) as [chunk|] eqn:Hc; [|done]. simpl in Hi. injection Hi as <-.
    exists i, chunk. split; [done|]. unfold worker in Hn. simpl in Hn.
    destruct (removeDuplicate chunk comparator); [|done].
    exfalso. apply Hn. by eexists.
  - intros (i & chunk & Hc & Hn). exists (worker comparator i chunk). split.
    + apply list_elem_of_lookup. exists i. by rewrite list_lookup_imap, Hc.
    + unfold worker. rewrite Hn. simpl. by intros [??].
Qed.

Lemma spawn_total chunks (cmp : T → T → bool) :
  spawn chunks (total cmp)
  = Some (imap (λ i chunk, {| index := i; data := dedupeChunk chunk cmp |}) chunks).
Proof.
  apply spawn_Some. split; [by rewrite length_imap|].
  intros i chunk Hc. exists (dedupeChunk chunk cmp). split.
  - apply removeDuplicate_total.
  - by rewrite list_lookup_imap, Hc.
Qed.

(** The barrier: when no worker panics, the array handed to the merge
    holds the result of chunk [i] at index [i], in every schedule. *)
Lemma dispatch_spawned sched chunks comparator sent :
  spawn chunks comparator = Some sent →
  dispatch sched chunks comparator = Returns (data <$> sent).
Proof.
  intros Hs. unfold dispatch. rewrite Hs.
  apply spawn_Some in Hs as [Hlen Hall].
  set (received := arrivals sched 0 (length sent) sent).
  assert (received ≡ₚ sent) as Hperm by by apply arrivals_Permutation.
  assert (∀ i r, sent !! i = Some r → index r = i) as Hidx.
  { intros i r Hr. destruct (lookup_lt_is_Some_2 chunks i) as [chunk Hc].
    { rewrite <- Hlen. by eapply lookup_lt_Some. }
    destruct (Hall _ _ Hc) as (out & _ & Hr'). rewrite Hr in Hr'. by injection Hr' as ->. }
  destruct (collect_spec (data <$> sent) received (replicate (length chunks) []))
    as (filled & -> & Hflen & Hfill).
  { by rewrite length_replicate, length_fmap. }
  { intros r [i Hi]%(elem_of_Permutation_proper _ _ _ Hperm)%list_elem_of_lookup_1.
    rewrite (Hidx _ _ Hi), list_lookup_fmap, Hi. done. }
  f_equal. apply list_eq. intros i. rewrite Hfill.
  case_decide as Hi; [done|].
  rewrite list_lookup_fmap.
  destruct (sent !! i) as [r|] eqn:Hr.
  - exfalso. apply Hi. rewrite Hperm. apply list_elem_of_fmap. exists r.
    split; [symmetry; eauto|]. by eapply list_elem_of_lookup_2.
  - simpl. apply lookup_replicate_None. rewrite <- Hlen. by apply lookup_ge_None.
Qed.

Lemma dispatch_total sched chunks (cmp : T → T → bool) :
  dispatch sched chunks (total cmp)
  = Returns ((λ chunk, dedupeChunk chunk cmp) <$> chunks).
Proof.
  rewrite (dispatch_spawned _ _ _ _ (spawn_total chunks cmp)). f_equal.
  apply list_eq. intros i. rewrite !list_lookup_fmap, list_lookup_imap.
  by destruct (chunks !! i).
Qed.

(** The schedule has no say in what the dispatcher hands over. *)
Lemma dispatch_schedule sched sched' chunks comparator :
  dispatch sched chunks comparator = dispatch sched' chunks comparator.
Proof.
  destruct (spawn chunks comparator) as [sent|] eqn:Hs.
  - by rewrite !(dispatch_spawned _ _ _ _ Hs).
  - unfold dispatch. by rewrite Hs.
Qed.

Lemma dispatch_Crashes sched chunks comparator :
  dispatch sched chunks comparator = Crashes ↔ spawn chunks comparator = None.
Proof.
  split.
  - destruct (spawn chunks comparator) as [sent|] eqn:Hs; [|done].
    by rewrite (dispatch_spawned _ _ _ _ Hs).
  - unfold dispatch. by intros ->.
Qed.
End dispatch_facts.

(** ** The merger *)
Section merge_facts.
Context {T : Type} `{Countable T}.
Implicit Types (seen : gmap T bool) (marked : gset T) (l result chunk : list T).

Lemma marks_empty : marks (T := T) ∅ ∅.
Proof. intros x. rewrite lookup_empty. simpl. split; [done|set_solver]. Qed.

Lemma marks_insert seen marked x :
  marks seen marked → marks (<[x:=true]> seen) ({[x]} ∪ marked).
Proof.
  intros Hm y. rewrite elem_of_union, elem_of_singleton, <- (Hm y).
  destruct (decide (x = y)) as [->|Hne].
  - rewrite lookup_insert_eq. simpl. tauto.
  - rewrite lookup_insert_ne by done. split; [tauto|]. intros [?|?]; congruence.
Qed.

Lemma emit_app marked l1 l2 :
  emit marked (l1 ++ l2) = emit marked l1 ++ emit (list_to_set l1 ∪ marked) l2.
Proof.
  revert marked. induction l1 as [|x l1 IH]; intros marked; simpl.
  - f_equal. set_solver.
  - case_decide as Hx.
    + rewrite IH. do 2 f_equal. set_solver.
    + simpl. rewrite IH. do 3 f_equal. set_solver.
Qed.

Lemma merge_chunk_emit chunk seen marked result :
  marks seen marked →
  ∃ seen', merge_chunk chunk seen result = (seen', result ++ emit marked chunk)
           ∧ marks seen' (list_to_set chunk ∪ marked).
Proof.
  revert seen marked result.
  induction chunk as [|item chunk IH]; intros seen marked result Hm; simpl.
  - exists seen. rewrite app_nil_r. split; [done|].
    intros x. rewrite (Hm x). set_solver.
  - destruct (default false (seen !! item)) eqn:Hseen; simpl.
    + apply Hm in Hseen. rewrite decide_True by done.
      destruct (IH seen marked result Hm) as (seen' & -> & Hm').
      exists seen'. split; [done|]. intros x. rewrite (Hm' x). set_solver.
    + assert (item ∉ marked) as Hnot by (rewrite <- (Hm item); congruence).
      rewrite decide_False by done.
      destruct (IH _ _ (result ++ [item]) (marks_insert _ _ item Hm)) as (seen' & -> & Hm').
      exists seen'. rewrite <- app_assoc. split; [done|].
      intros x. rewrite (Hm' x). set_solver.
Qed.

Lemma merge_loop_emit (results : list (list T)) seen marked result :
  marks seen marked →
  (merge_loop results seen result).2 = result ++ emit marked (concat results).
Proof.
  revert seen marked result.
  induction results as [|chunk results IH]; intros seen marked result Hm; simpl.
  - by rewrite app_nil_r.
  - destruct (merge_chunk_emit chunk seen marked result Hm) as (seen' & -> & Hm').
    rewrite (IH _ _ _ Hm'), emit_app, app_assoc. done.
Qed.

Lemma merge_is_merge_spec (results : list (list T)) :
  merge results = merge_spec results.
Proof. apply (merge_loop_emit results ∅ ∅ []), marks_empty. Qed.

Lemma emit_sublist marked l : sublist (emit marked l) l.
Proof.
  revert marked. induction l as [|x l IH]; intros marked; simpl; [done|].
  case_decide; [apply sublist_cons|apply sublist_skip]; apply IH.
Qed.

Lemma elem_of_emit marked l x : x ∈ emit marked l ↔ x ∈ l ∧ x ∉ marked.
Proof.
  revert marked. induction l as [|y l IH]; intros marked; simpl.
  - set_solver.
  - case_decide.
    + rewrite IH. set_solver.
    + rewrite elem_of_cons, IH. destruct (decide (x = y)); set_solver.
Qed.

Lemma emit_NoDup marked l : NoDup (emit marked l).
Proof.
  revert marked. induction l as [|x l IH]; intros marked; simpl.
  - apply NoDup_nil_2.
  - case_decide; [apply IH|]. apply NoDup_cons. split; [|apply IH].
    rewrite elem_of_emit. set_solver.
Qed.

(** The pass changes nothing on a list without repetitions. *)
Lemma emit_id marked l :
  NoDup l → (∀ x, x ∈ l → x ∉ marked) → emit marked l = l.
Proof.
  revert marked. induction l as [|x l IH]; intros marked Hnd Hfresh; simpl; [done|].
  apply NoDup_cons in Hnd as [Hx Hnd].
  rewrite decide_False by (apply Hfresh; left). f_equal.
  apply IH; [done|]. intros y Hy. specialize (Hfresh y). set_solver.
Qed.

(** An element is emitted at its first occurrence: what precedes it in
    the traversal decides, nothing else. *)
Lemma emit_snoc l x :
  emit ∅ (l ++ [x]) = if decide (x ∈ l) then emit ∅ l else emit ∅ l ++ [x].
Proof.
  rewrite emit_app. simpl. rewrite union_empty_r_L.
  destruct (decide (x ∈ l)) as [Hx|Hx].
  - rewrite decide_True by set_solver. apply app_nil_r.
  - rewrite decide_False by set_solver. done.
Qed.
End merge_facts.

(** ** The whole function *)
Section UniqueByParallel_facts.
Context {T : Type} `{Countable T}.
Variables (NumCPU : positive) (sched : nat → nat).
Implicit Types (slice : list T) (comparator : comparator_fn T).

Lemma len_pos slice : slice ≠ [] → (1 ≤ len slice)%Z.
Proof. destruct slice; [done|]. unfold len. simpl. lia. Qed.

Lemma sublist_concat (xss yss : list (list T)) :
  Forall2 sublist xss yss → sublist (concat xss) (concat yss).
Proof. induction 1; simpl; [done|]. by apply sublist_app. Qed.

(** On a non-empty slice the call gets through the partition, and its
    outcome is decided by the workers. *)
Lemma UniqueByParallel_nonempty slice numOfThreads comparator :
  slice ≠ [] → (len slice < 2 ^ 62)%Z →
  ∃ chunks,
    partition slice (effectiveThreads NumCPU (len slice) numOfThreads) = Returns chunks
    ∧ UniqueByParallel NumCPU sched slice numOfThreads comparator
      = match spawn chunks comparator with
        | Some sent => Returns (merge (data <$> sent))
        | None => Crashes
        end.
Proof.
  intros Hne Hn. pose proof (len_pos _ Hne) as H1.
  destruct (effectiveThreads_range NumCPU (len slice) numOfThreads H1) as [Hw _].
  destruct (partition_spec slice _ Hw Hn) as (chunks & Hp & _).
  exists chunks. split; [done|]. unfold UniqueByParallel. rewrite Hp. simpl.
  destruct (spawn chunks comparator) as [sent|] eqn:Hs.
  - by rewrite (dispatch_spawned _ _ _ _ Hs).
  - unfold dispatch. by rewrite Hs.
Qed.

Lemma UniqueByParallel_total slice numOfThreads (cmp : T → T → bool) :
  slice ≠ [] → (len slice < 2 ^ 62)%Z →
  ∃ chunks,
    partition slice (effectiveThreads NumCPU (len slice) numOfThreads) = Returns chunks
    ∧ UniqueByParallel NumCPU sched slice numOfThreads (total cmp)
      = Returns (merge ((λ chunk, dedupeChunk chunk cmp) <$> chunks)).
Proof.
  intros Hne Hn. pose proof (len_pos _ Hne) as H1.
  destruct (effectiveThreads_range NumCPU (len slice) numOfThreads H1) as [Hw _].
  destruct (partition_spec slice _ Hw Hn) as (chunks & Hp & _).
  exists chunks. split; [done|]. unfold UniqueByParallel. rewrite Hp. simpl.
  by rewrite dispatch_total.
Qed.

Lemma UniqueByParallel_empty numOfThreads comparator :
  UniqueByParallel NumCPU sched [] numOfThreads comparator
  = if decide (numOfThreads ≤ 0)%Z then Returns [] else Panics DivideByZero.
Proof.
  unfold UniqueByParallel. change (len (@nil T)) with 0%Z.
  rewrite effectiveThreads_empty. by case_decide.
Qed.

(** Whenever the call returns, on any input and with any comparator. *)
Lemma UniqueByParallel_Returns slice numOfThreads comparator out :
  (len slice < 2 ^ 62)%Z →
  UniqueByParallel NumCPU sched slice numOfThreads comparator = Returns out →
  sublist out slice ∧ NoDup out.
Proof.
  intros Hn. destruct (decide (slice = [])) as [->|Hne].
  { rewrite UniqueByParallel_empty. case_decide; [|done]. intros [= <-].
    split; [done|apply NoDup_nil_2]. }
  pose proof (len_pos _ Hne) as H1.
  destruct (effectiveThreads_range NumCPU (len slice) numOfThreads H1) as [Hw _].
  destruct (partition_spec slice _ Hw Hn) as (chunks & Hp & Hcat & _).
  destruct (UniqueByParallel_nonempty slice numOfThreads comparator Hne Hn)
    as (chunks' & Hp' & ->).
  rewrite Hp in Hp'. injection Hp' as <-.
  destruct (spawn chunks comparator) as [sent|] eqn:Hs; [|done].
  intros [= <-]. rewrite merge_is_merge_spec. unfold merge_spec.
  split; [|apply emit_NoDup].
  etrans; [apply emit_sublist|]. rewrite <- Hcat. apply sublist_concat.
  apply spawn_Some in Hs as [Hlen Hall].
  apply Forall2_same_length_lookup. split; [by rewrite length_fmap|].
  intros i out chunk. rewrite list_lookup_fmap. intros Ho Hc.
  destruct (Hall _ _ Hc) as (out' & Hout & Hs). rewrite Hs in Ho. simpl in Ho.
  injection Ho as <-. by eapply removeDuplicate_sublist.
Qed.
(** The outcome of a call does not depend on the order in which the
    workers finish. *)
Lemma UniqueByParallel_schedule (sched' : nat → nat) slice numOfThreads comparator :
  UniqueByParallel NumCPU sched slice numOfThreads comparator
  = UniqueByParallel NumCPU sched' slice numOfThreads comparator.
Proof.
  unfold UniqueByParallel. destruct (partition slice _) as [chunks| | |]; simpl; try done.
  by rewrite (dispatch_schedule sched sched').
Qed.

(** The iteration budget of the partition loop is never used up. *)
Lemma UniqueByParallel_finishes slice numOfThreads comparator :
  (len slice < 2 ^ 62)%Z →
  UniqueByParallel NumCPU sched slice numOfThreads comparator ≠ Unfinished.
Proof.
  intros Hn. destruct (decide (slice = [])) as [->|Hne].
  - rewrite UniqueByParallel_empty. by case_decide.
  - destruct (UniqueByParallel_nonempty slice numOfThreads comparator Hne Hn)
      as (chunks & _ & ->). by destruct (spawn chunks comparator).
Qed.
End UniqueByParallel_facts.

(** * The claims *)

(** [C1] On an empty input the call returns the empty slice when
    [numOfThreads] is zero or negative. For every positive [numOfThreads]
    the clamp of line 21 sets it to [len(slice)], which is zero, and the
    division of line 46 panics: no result is returned. *)
Theorem UniqueByParallel_empty_input {T : Type} `{Countable T}
    (NumCPU : positive) (sched : nat → nat) (numOfThreads : Z)
    (comparator : comparator_fn T) :
  UniqueByParallel NumCPU sched [] numOfThreads comparator
  = if decide (numOfThreads ≤ 0)%Z then Returns [] else Panics DivideByZero.
Proof. apply UniqueByParallel_empty. Qed.

(** The clamps on a non-empty input, and the clamp to the core count on
    any input. *)
Lemma effectiveThreads_clamps (NumCPU : positive) (n numOfThreads : Z) :
  (numOfThreads > Z.pos NumCPU →
     effectiveThreads NumCPU n numOfThreads = effectiveThreads NumCPU n (Z.pos NumCPU))%Z
  ∧ (1 ≤ n → numOfThreads ≤ 0 →
     effectiveThreads NumCPU n numOfThreads = effectiveThreads NumCPU n 1)%Z
  ∧ (1 ≤ n → numOfThreads > n →
     effectiveThreads NumCPU n numOfThreads = effectiveThreads NumCPU n n)%Z.
Proof.
  unfold effectiveThreads. split_and!; intros; repeat case_match; lia.
Qed.

Lemma UniqueByParallel_clamps {T : Type} `{Countable T}
    (NumCPU : positive) (sched : nat → nat) (slice : list T)
    (numOfThreads : Z) (comparator : comparator_fn T) :
  (numOfThreads > Z.pos NumCPU →
     UniqueByParallel NumCPU sched slice numOfThreads comparator
     = UniqueByParallel NumCPU sched slice (Z.pos NumCPU) comparator)%Z
  ∧ (slice ≠ [] → numOfThreads ≤ 0 →
     UniqueByParallel NumCPU sched slice numOfThreads comparator
     = UniqueByParallel NumCPU sched slice 1 comparator)%Z
  ∧ (slice ≠ [] → numOfThreads > len slice →
     UniqueByParallel NumCPU sched slice numOfThreads comparator
     = UniqueByParallel NumCPU sched slice (len slice) comparator)%Z.
Proof.
  destruct (effectiveThreads_clamps NumCPU (len slice) numOfThreads) as (H1 & H2 & H3).
  unfold UniqueByParallel.
  split_and!.
  - intros Hp. by rewrite (H1 Hp).
  - intros Hne%len_pos Hp. by rewrite (H2 Hne Hp).
  - intros Hne%len_pos Hp. by rewrite (H3 Hne Hp).
Qed.

(** [C3] On the empty input the clamps do not agree: a zero or negative
    [numOfThreads] returns the empty slice, and both [numOfThreads = 1] and
    a [numOfThreads] above [len(slice) = 0] panic with the division by zero
    of line 46, while [numOfThreads = len(slice) = 0] returns. *)
Theorem clamps_disagree_on_empty_input {T : Type} `{Countable T}
    (NumCPU : positive) (sched : nat → nat) (comparator : comparator_fn T) :
  UniqueByParallel NumCPU sched [] 0 comparator = Returns []
  ∧ UniqueByParallel NumCPU sched [] (-3) comparator = Returns []
  ∧ UniqueByParallel NumCPU sched [] 1 comparator = Panics DivideByZero
  ∧ UniqueByParallel NumCPU sched [] 2 comparator = Panics DivideByZero
  ∧ UniqueByParallel NumCPU sched [] (len (@nil T)) comparator = Returns [].
Proof. by rewrite !UniqueByParallel_empty. Qed.

(** With one effective thread the output is the equality pass over the
    comparator-distinct of the whole input. *)
Lemma UniqueByParallel_single_chunk {T : Type} `{Countable T}
    (NumCPU : positive) (sched : nat → nat) (slice : list T)
    (numOfThreads : Z) (cmp : T → T → bool) :
  slice ≠ [] → (len slice < 2 ^ 62)%Z →
  effectiveThreads NumCPU (len slice) numOfThreads = 1%Z →
  UniqueByParallel NumCPU sched slice numOfThreads (total cmp)
  = Returns (emit ∅ (dedupeChunk slice cmp)).
Proof.
  intros Hne Hn Hw.
  destruct (UniqueByParallel_total NumCPU sched slice numOfThreads cmp Hne Hn)
    as (chunks & Hp & ->).
  rewrite Hw, partition_one in Hp by done. injection Hp as <-.
  rewrite merge_is_merge_spec. unfold merge_spec. simpl. by rewrite app_nil_r.
Qed.

(** [C2] For a non-empty input and a comparator that answers true on any
    two elements of the input that are equal under [==] (what the doc
    comment of the function asks of it), when the effective thread count
    is 1 the output is the comparator-based left-to-right distinct of the
    whole input: the merge changes nothing. Equality [==] is the equality
    of the element type here, as for the types whose [==] is identity. *)
Theorem single_chunk_is_comparator_distinct {T : Type} `{Countable T}
    (NumCPU : positive) (sched : nat → nat) (slice : list T)
    (numOfThreads : Z) (cmp : T → T → bool) :
  slice ≠ [] → (len slice < 2 ^ 62)%Z →
  effectiveThreads NumCPU (len slice) numOfThreads = 1%Z →
  (∀ x y, x ∈ slice → y ∈ slice → x = y → cmp x y = true) →
  UniqueByParallel NumCPU sched slice numOfThreads (total cmp)
  = Returns (dedupeChunk slice cmp).
Proof.
  intros Hne Hn Hw Heq.
  rewrite UniqueByParallel_single_chunk by done. f_equal.
  apply emit_id; [|set_solver].
  apply dedupeChunk_NoDup. intros x Hx. by apply Heq.
Qed.

Lemma single_chunk_is_comparator_distinct_witness :
  ([1; 2; 2; 1]%Z ≠ [] ∧ (len [1; 2; 2; 1]%Z < 2 ^ 62)%Z
   ∧ effectiveThreads 4 (len [1; 2; 2; 1]%Z) 1 = 1%Z
   ∧ ∀ x y : Z, x ∈ [1; 2; 2; 1]%Z → y ∈ [1; 2; 2; 1]%Z → x = y →
                (x =? y)%Z = true)
  ∧ UniqueByParallel 4 (λ _, 0) [1; 2; 2; 1]%Z 1 (total Z.eqb)
    = Returns (dedupeChunk [1; 2; 2; 1]%Z Z.eqb).
Proof.
  assert ([1; 2; 2; 1]%Z ≠ []) as H1 by discriminate.
  assert (len [1; 2; 2; 1]%Z < 2 ^ 62)%Z as H2 by reflexivity.
  assert (effectiveThreads 4 (len [1; 2; 2; 1]%Z) 1 = 1%Z) as H3 by reflexivity.
  assert (∀ x y : Z, x ∈ [1; 2; 2; 1]%Z → y ∈ [1; 2; 2; 1]%Z → x = y →
                     (x =? y)%Z = true) as H4
    by (intros x y _ _ Hxy; apply Z.eqb_eq, Hxy).
  split; [by split_and!|].
  exact (single_chunk_is_comparator_distinct 4 (λ _, 0) _ 1 Z.eqb H1 H2 H3 H4).
Defined.

(** A comparator that never answers [true] keeps both copies of [1] in the
    worker; the merge then drops the second one. *)
Lemma single_chunk_counterexample :
  [1; 1]%Z ≠ []
  ∧ effectiveThreads 4 (len [1; 1]%Z) 1 = 1%Z
  ∧ dedupeChunk [1; 1]%Z (λ _ _, false) = [1; 1]%Z
  ∧ UniqueByParallel 4 (λ _, 0) [1; 1]%Z 1 (total (λ _ _, false)) = Returns [1%Z]
  ∧ UniqueByParallel 4 (λ _, 0) [1; 1]%Z 1 (total (λ _ _, false))
    ≠ Returns (dedupeChunk [1; 1]%Z (λ _ _, false)).
Proof.
  split_and!; [discriminate|reflexivity|reflexivity|by vm_compute|].
  vm_compute. discriminate.
Qed.

(** [C4] The merge goes through the chunk results in ascending chunk
    index and keeps an element exactly when no equal element came earlier
    in that traversal; equality is Go's [==], the comparator plays no part
    in it. The array it reads holds the result of chunk [i] at index [i]
    in every schedule, so the output of a call is this pass over the
    results of the chunks in the order of the chunks. With two threads and
    a case-insensitive comparator, ["a","b","A"] comes out as
    ["a","b","A"]. *)
Theorem merge_keeps_first_by_equality :
  (∀ (T : Type) `(Countable T) (results : list (list T)),
     merge results = emit ∅ (concat results))
  ∧ (∀ (T : Type) `(Countable T),
       emit ∅ (@nil T) = []
       ∧ ∀ (l : list T) (x : T),
           emit ∅ (l ++ [x]) = if decide (x ∈ l) then emit ∅ l else emit ∅ l ++ [x])
  ∧ (∀ (T : Type) (sched : nat → nat) (chunks : list (list T)) (cmp : T → T → bool),
       dispatch sched chunks (total cmp)
       = Returns ((λ chunk, dedupeChunk chunk cmp) <$> chunks))
  ∧ (∀ (T : Type) `(Countable T) (NumCPU : positive) (sched : nat → nat)
       (slice : list T) (numOfThreads : Z) (cmp : T → T → bool),
       UniqueByParallel NumCPU sched slice numOfThreads (total cmp)
       = chunks ← partition slice (effectiveThreads NumCPU (len slice) numOfThreads);
         Returns (emit ∅ (concat ((λ chunk, dedupeChunk chunk cmp) <$> chunks))))
  ∧ (∀ (cpus : positive) (sched : nat → nat),
       effectiveThreads (Pos.succ cpus) (len ["a"; "b"; "A"]%string) 2 = 2%Z
       ∧ partition ["a"; "b"; "A"]%string 2 = Returns [["a"; "b"]; ["A"]]%string
       ∧ UniqueByParallel (Pos.succ cpus) sched ["a"; "b"; "A"]%string 2 (total equalFold)
         = Returns ["a"; "b"; "A"]%string).
Proof.
  split_and!.
  - intros. apply merge_is_merge_spec.
  - intros. split; [done|]. intros. apply emit_snoc.
  - intros. apply dispatch_total.
  - intros. unfold UniqueByParallel.
    destruct (partition slice _) as [chunks| | |]; try done.
    unfold mbind, outcome_bind. rewrite dispatch_total.
    by rewrite merge_is_merge_spec.
  - intros cpus sched.
    assert (effectiveThreads (Pos.succ cpus) (len ["a"; "b"; "A"]%string) 2 = 2%Z) as Hw.
    { unfold effectiveThreads. change (len _) with 3%Z.
      rewrite Pos2Z.inj_succ. unfold Z.succ. repeat case_match; lia. }
    split_and!; [done|by vm_compute|].
    unfold UniqueByParallel. rewrite Hw.
    change (partition _ 2) with (Returns [["a"; "b"]; ["A"]]%string). simpl.
    rewrite dispatch_total. by vm_compute.
Qed.

(** [C5] Whenever the call returns, with any thread count and any
    comparator, its output is a subsequence of the input and holds no two
    equal elements; and it does return on every non-empty input when the
    comparator does not panic. *)
Theorem output_is_distinct_subsequence {T : Type} `{Countable T}
    (NumCPU : positive) (sched : nat → nat) (slice : list T) (numOfThreads : Z) :
  (len slice < 2 ^ 62)%Z →
  (∀ (comparator : comparator_fn T) (out : list T),
     UniqueByParallel NumCPU sched slice numOfThreads comparator = Returns out →
     sublist out slice ∧ NoDup out)
  ∧ (∀ cmp : T → T → bool,
       slice ≠ [] ∨ (numOfThreads ≤ 0)%Z →
       ∃ out, UniqueByParallel NumCPU sched slice numOfThreads (total cmp)
              = Returns out).
Proof.
  intros Hn. split.
  - intros comparator out. by apply UniqueByParallel_Returns.
  - intros cmp Hcase. destruct (decide (slice = [])) as [->|Hne].
    + destruct Hcase as [?|Hp]; [done|]. exists [].
      rewrite UniqueByParallel_empty. by rewrite decide_True.
    + destruct (UniqueByParallel_total NumCPU sched slice numOfThreads cmp Hne Hn)
        as (chunks & _ & ->). by eexists.
Qed.

Lemma output_is_distinct_subsequence_witness :
  (len [1; 2; 2; 3; 1; 4]%Z < 2 ^ 62)%Z
  ∧ ((∀ (comparator : comparator_fn Z) (out : list Z),
        UniqueByParallel 4 (λ k, k) [1; 2; 2; 3; 1; 4]%Z 2 comparator = Returns out →
        sublist out [1; 2; 2; 3; 1; 4]%Z ∧ NoDup out)
     ∧ (∀ cmp : Z → Z → bool,
          [1; 2; 2; 3; 1; 4]%Z ≠ [] ∨ (2 ≤ 0)%Z →
          ∃ out, UniqueByParallel 4 (λ k, k) [1; 2; 2; 3; 1; 4]%Z 2 (total cmp)
                 = Returns out)).
Proof.
  assert (len [1; 2; 2; 3; 1; 4]%Z < 2 ^ 62)%Z as Hn by reflexivity.
  split; [exact Hn|].
  exact (output_is_distinct_subsequence 4 (λ k, k) [1; 2; 2; 3; 1; 4]%Z 2 Hn).
Defined.

(** Scenarios A and B of the specification. *)
Example scenario_A (sched : nat → nat) :
  UniqueByParallel 2 sched [1; 2; 2; 3; 1; 4]%Z 2 (total Z.eqb)
  = Returns [1; 2; 3; 4]%Z.
Proof.
  destruct (UniqueByParallel_total 2 sched [1; 2; 2; 3; 1; 4]%Z 2 Z.eqb)
    as (chunks & Hp & ->); [done..|].
  vm_compute in Hp. injection Hp as <-. by vm_compute.
Qed.

Example scenario_B (sched : nat → nat) :
  UniqueByParallel 2 sched ["a"; "A"; "b"]%string 1 (total equalFold)
  = Returns ["a"; "b"]%string.
Proof.
  destruct (UniqueByParallel_total 2 sched ["a"; "A"; "b"]%string 1 equalFold)
    as (chunks & Hp & ->); [done..|].
  vm_compute in Hp. injection Hp as <-. by vm_compute.
Qed.

(** [C7] For a non-empty input and a thread count [w] between 1 and its
    length, the chunk size is [ceil(len / w)]; chunk [i] is
    [slice[i*chunkSize : min((i+1)*chunkSize, len)]], so the chunks are
    contiguous and do not overlap; none is empty, and their concatenation
    in order is the input. The chunks are a function of the input and [w]. *)
Theorem partition_chunks {T : Type} (slice : list T) (w : Z) :
  (1 ≤ w ≤ len slice)%Z → (len slice < 2 ^ 62)%Z →
  ∃ (cs : Z) (chunks : list (list T)),
    chunkSize (len slice) w = Returns cs
    ∧ cs = ceil_div (len slice) w
    ∧ ((cs - 1) * w < len slice ≤ cs * w)%Z
    ∧ partition slice w = Returns chunks
    ∧ (∀ (i : nat) (chunk : list T), chunks !! i = Some chunk →
         slice_expr slice (Z.of_nat i * cs)
           (Z.min ((Z.of_nat i + 1) * cs) (len slice)) = Returns chunk
         ∧ chunk ≠ [])
    ∧ concat chunks = slice.
Proof.
  intros Hw Hn.
  destruct (partition_spec slice w Hw Hn) as (chunks & Hp & Hcat & Hne & _ & Hidx).
  pose proof (ceil_div_bounds (len slice) w) as Hb.
  exists (ceil_div (len slice) w), chunks.
  repeat split; [by apply chunkSize_ceil|lia|lia|done|by apply Hidx| |done].
  by eapply (Forall_lookup_1 _ _ _ _ Hne).
Qed.

Lemma partition_chunks_witness :
  ((1 ≤ 2 ≤ len [1; 2; 2; 3; 1]%Z)%Z ∧ (len [1; 2; 2; 3; 1]%Z < 2 ^ 62)%Z)
  ∧ ∃ (cs : Z) (chunks : list (list Z)),
      chunkSize (len [1; 2; 2; 3; 1]%Z) 2 = Returns cs
      ∧ cs = ceil_div (len [1; 2; 2; 3; 1]%Z) 2
      ∧ ((cs - 1) * 2 < len [1; 2; 2; 3; 1]%Z ≤ cs * 2)%Z
      ∧ partition [1; 2; 2; 3; 1]%Z 2 = Returns chunks
      ∧ (∀ (i : nat) (chunk : list Z), chunks !! i = Some chunk →
           slice_expr [1; 2; 2; 3; 1]%Z (Z.of_nat i * cs)
             (Z.min ((Z.of_nat i + 1) * cs) (len [1; 2; 2; 3; 1]%Z)) = Returns chunk
           ∧ chunk ≠ [])
      ∧ concat chunks = [1; 2; 2; 3; 1]%Z.
Proof.
  assert (1 ≤ 2 ≤ len [1; 2; 2; 3; 1]%Z)%Z as Hw by (vm_compute; split; discriminate).
  assert (len [1; 2; 2; 3; 1]%Z < 2 ^ 62)%Z as Hn by reflexivity.
  split; [by split|].
  exact (partition_chunks [1; 2; 2; 3; 1]%Z 2 Hw Hn).
Defined.

(** [C8] For a non-empty input and a thread count [w] between 1 and its
    length, the partitioner produces [ceil(len / chunkSize)] chunks, at
    least one and at most [w]; when no worker panics, one value per chunk
    arrives on the channel, in an order the schedule decides, and the array
    handed to the merge holds the result of chunk [i] at index [i]. *)
Theorem chunk_count_and_collection {T : Type} (sched : nat → nat)
    (slice : list T) (w : Z) (comparator : comparator_fn T) :
  (1 ≤ w ≤ len slice)%Z → (len slice < 2 ^ 62)%Z →
  ∃ chunks : list (list T),
    partition slice w = Returns chunks
    ∧ len chunks = ceil_div (len slice) (ceil_div (len slice) w)
    ∧ (1 ≤ len chunks ≤ w)%Z
    ∧ ∀ sent, spawn chunks comparator = Some sent →
        length (arrivals sched 0 (length sent) sent) = length chunks
        ∧ arrivals sched 0 (length sent) sent ≡ₚ sent
        ∧ dispatch sched chunks comparator = Returns (data <$> sent)
        ∧ Forall2 (λ chunk out, removeDuplicate chunk comparator = Some out)
            chunks (data <$> sent).
Proof.
  intros Hw Hn.
  destruct (partition_spec slice w Hw Hn) as (chunks & Hp & _ & _ & Hlen & _).
  exists chunks. split_and!; [done|done|rewrite Hlen; by apply chunk_count_le..|].
  intros sent Hs.
  pose proof (arrivals_Permutation sched (length sent) 0 sent eq_refl) as Hperm.
  pose proof (dispatch_spawned sched _ _ _ Hs) as Hd.
  apply spawn_Some in Hs as [Hslen Hall].
  split_and!; [by rewrite Hperm|done|done|].
  apply Forall2_same_length_lookup. split; [by rewrite length_fmap|].
  intros i chunk out Hc. rewrite list_lookup_fmap.
  destruct (Hall _ _ Hc) as (out' & Hout & ->). by intros [= <-].
Qed.

Lemma chunk_count_and_collection_witness :
  ((1 ≤ 4 ≤ len [1; 2; 3; 4; 5]%Z)%Z ∧ (len [1; 2; 3; 4; 5]%Z < 2 ^ 62)%Z)
  ∧ ∃ chunks : list (list Z),
      partition [1; 2; 3; 4; 5]%Z 4 = Returns chunks
      ∧ len chunks = ceil_div (len [1; 2; 3; 4; 5]%Z) (ceil_div (len [1; 2; 3; 4; 5]%Z) 4)
      ∧ (1 ≤ len chunks ≤ 4)%Z
      ∧ ∀ sent, spawn chunks (total Z.eqb) = Some sent →
          length (arrivals (λ k, k) 0 (length sent) sent) = length chunks
          ∧ arrivals (λ k, k) 0 (length sent) sent ≡ₚ sent
          ∧ dispatch (λ k, k) chunks (total Z.eqb) = Returns (data <$> sent)
          ∧ Forall2 (λ chunk out, removeDuplicate chunk (total Z.eqb) = Some out)
              chunks (data <$> sent).
Proof.
  assert (1 ≤ 4 ≤ len [1; 2; 3; 4; 5]%Z)%Z as Hw by (vm_compute; split; discriminate).
  assert (len [1; 2; 3; 4; 5]%Z < 2 ^ 62)%Z as Hn by reflexivity.
  split; [by split|].
  exact (chunk_count_and_collection (λ k, k) [1; 2; 3; 4; 5]%Z 4 (total Z.eqb) Hw Hn).
Defined.

(** Five elements and four threads: chunks of two, hence three chunks. *)
Lemma chunk_count_counterexample :
  [1; 2; 3; 4; 5]%Z ≠ []
  ∧ effectiveThreads 4 (len [1; 2; 3; 4; 5]%Z) 4 = 4%Z
  ∧ partition [1; 2; 3; 4; 5]%Z 4 = Returns [[1; 2]; [3; 4]; [5]]%Z
  ∧ ¬ ∃ chunks, partition [1; 2; 3; 4; 5]%Z 4 = Returns chunks ∧ len chunks = 4%Z.
Proof.
  split_and!; [discriminate|reflexivity|by vm_compute|].
  intros (chunks & Hp & Hlen). vm_compute in Hp. injection Hp as <-. discriminate.
Qed.




(** ** Slices in memory *)
Section Mem_facts.
Context {T : Type} `{Countable T}.
Variables (zero : T) (growcap : nat → nat).
Implicit Types (σ : Mem.heap T) (s items result chunk : Mem.slice).
Implicit Types (D : gset Mem.loc) (comparator : comparator_fn T).

Lemma wf_mono σ σ' s : σ ⊆ σ' → Mem.wf σ s → Mem.wf σ' s.
Proof.
  intros Hsub [Hlen Hb]. split; [done|].
  destruct (Mem.base s) as [a|]; [|done].
  destruct Hb as (cells & Ha & Hcap). exists cells. split; [|done].
  by eapply lookup_weaken.
Qed.

Lemma view_mono σ σ' s : σ ⊆ σ' → Mem.wf σ s → Mem.view σ' s = Mem.view σ s.
Proof.
  intros Hsub [_ Hb]. unfold Mem.view.
  destruct (Mem.base s) as [a|]; [|done].
  destruct Hb as (cells & Ha & _).
  by rewrite Ha, (lookup_weaken _ _ _ _ Ha Hsub).
Qed.

Lemma view_length σ s : Mem.wf σ s → length (Mem.view σ s) = Mem.slen s.
Proof.
  intros [Hlen Hb]. unfold Mem.view.
  destruct (Mem.base s) as [a|]; [|simpl; lia].
  destruct Hb as (cells & -> & Hcap). simpl.
  rewrite length_take, length_drop. lia.
Qed.

Lemma private_mono D D' s : D' ⊆ D → Mem.private D s → Mem.private D' s.
Proof. intros Hsub Hp a Ha. specialize (Hp a Ha). set_solver. Qed.

Lemma wf_nil σ : Mem.wf σ Mem.nil_slice.
Proof. by split. Qed.

Lemma private_nil D : Mem.private D Mem.nil_slice.
Proof. by intros a. Qed.

(** Reading inside the length of a slice gives the element of its view. *)
Lemma load_view σ s i x :
  Mem.view σ s !! i = Some x → Mem.load s i σ = (σ, Returns x).
Proof.
  unfold Mem.view, Mem.load. destruct (Mem.base s) as [a|]; [|done].
  intros [Hx Hi]%lookup_take_Some. rewrite lookup_drop in Hx.
  rewrite decide_True by done. simpl.
  destruct (σ !! a) as [cells|]; simpl in *; [|done]. by rewrite Hx.
Qed.

(** Appending to a slice that shares no array with the heap [σ0] the call
    started from: that heap is still part of the new one, and the slice
    returned holds one more element and is again its own. *)
Lemma append_spec σ0 σ s x :
  σ0 ⊆ σ → Mem.wf σ s → Mem.private (dom σ0) s →
  ∃ σ' s',
    Mem.append zero growcap s x σ = (σ', Returns s')
    ∧ σ0 ⊆ σ' ∧ Mem.wf σ' s' ∧ Mem.private (dom σ0) s'
    ∧ Mem.view σ' s' = Mem.view σ s ++ [x].
Proof.
  intros Hsub Hwf Hpriv. pose proof (view_length _ _ Hwf) as Hvlen.
  assert (∀ c, S (Mem.slen s) ≤ c →
    let a' := fresh (dom σ) in
    let σ' := <[a' := Mem.view σ s ++ x :: replicate (c - S (Mem.slen s)) zero]> σ in
    let s' := {| Mem.base := Some a'; Mem.off := 0;
                 Mem.slen := S (Mem.slen s); Mem.scap := c |} in
    σ0 ⊆ σ' ∧ Mem.wf σ' s' ∧ Mem.private (dom σ0) s'
    ∧ Mem.view σ' s' = Mem.view σ s ++ [x]) as Hfresh.
  { intros c Hc a' σ' s'.
    assert (σ !! a' = None) as Hnone by apply not_elem_of_dom, is_fresh.
    split_and!.
    - etrans; [done|]. by apply insert_subseteq.
    - split; [done|]. simpl. eexists. split; [apply lookup_insert_eq|].
      rewrite length_app. simpl. rewrite length_replicate. lia.
    - intros a [= <-]. intros Hin%(subseteq_dom _ _ Hsub). by apply is_fresh in Hin.
    - unfold Mem.view at 1. simpl. subst σ'. rewrite lookup_insert_eq. simpl.
      rewrite drop_0, (cons_middle x), app_assoc.
      apply take_app_length'. rewrite length_app. simpl. lia. }
  unfold Mem.append. destruct (Mem.base s) as [a|] eqn:Hbase; last first.
  { do 2 eexists. split; [done|]. apply Hfresh. lia. }
  destruct (decide (Mem.slen s < Mem.scap s)) as [Hroom|Hfull]; last first.
  { do 2 eexists. split; [done|]. apply Hfresh. lia. }
  do 2 eexists. split; [done|].
  destruct Hwf as [Hle Hb]. rewrite Hbase in Hb. destruct Hb as (cells & Ha & Hcap).
  assert (σ0 !! a = None) as Hnone by (apply not_elem_of_dom, Hpriv; done).
  split_and!.
  - apply map_subseteq_spec. intros b cs Hb.
    rewrite lookup_alter_ne by congruence. by eapply lookup_weaken.
  - split; [simpl; lia|]. simpl. eexists. split.
    + rewrite lookup_alter_eq, Ha. done.
    + by rewrite length_insert.
  - intros b. simpl. intros [= <-]. by apply Hpriv.
  - unfold Mem.view. simpl. rewrite Hbase, lookup_alter_eq, Ha. simpl.
    rewrite drop_insert_ge by lia.
    replace (Mem.off s + Mem.slen s - Mem.off s) with (Mem.slen s) by lia.
    erewrite take_S_r; last first.
    { apply list_lookup_insert_eq. rewrite length_drop. lia. }
    by rewrite take_insert_ge.
Qed.
Lemma seen_in_sim σ comparator item result n : ∀ j,
  j + n = Mem.slen result → Mem.wf σ result →
  Mem.seen_in comparator item result j n σ
  = (σ, in_goroutine (seen_in comparator item (drop j (Mem.view σ result)))).
Proof.
  induction n as [|n IH]; intros j Hj Hwf; simpl.
  - rewrite drop_ge by (rewrite view_length by done; lia). done.
  - destruct (lookup_lt_is_Some_2 (Mem.view σ result) j) as [r Hr].
    { rewrite view_length by done. lia. }
    unfold Mem.bind at 1. rewrite (load_view _ _ _ _ Hr), (drop_S _ _ _ Hr). simpl.
    unfold Mem.bind at 1, Mem.call, Mem.lift.
    destruct (comparator item r) as [[]|]; simpl; [done| |done].
    apply IH; [lia|done].
Qed.

Lemma removeDuplicate_loop_sim σ0 comparator items n :
  Mem.wf σ0 items →
  ∀ k σ result,
    k + n = Mem.slen items → σ0 ⊆ σ →
    Mem.wf σ result → Mem.private (dom σ0) result →
    ∃ σ' r,
      Mem.removeDuplicate_loop zero growcap comparator items k n result σ = (σ', r)
      ∧ σ0 ⊆ σ'
      ∧ outcome_rel (Mem.holds σ' (dom σ0)) r
          (in_goroutine (removeDuplicate_loop comparator
             (drop k (Mem.view σ0 items)) (Mem.view σ result))).
Proof.
  intros Hitems. induction n as [|n IH]; intros k σ result Hk Hsub Hwf Hpriv; simpl.
  - rewrite drop_ge by (rewrite view_length by done; lia).
    exists σ, (Returns result). by split_and!.
  - destruct (lookup_lt_is_Some_2 (Mem.view σ0 items) k) as [item Hitem].
    { rewrite view_length by done. lia. }
    rewrite (drop_S _ _ _ Hitem). simpl.
    unfold Mem.bind at 1. rewrite (load_view σ items k item)
      by (by rewrite (view_mono σ0 σ)).
    unfold Mem.bind at 1. rewrite (seen_in_sim σ comparator item result _ 0) by done.
    rewrite drop_0.
    destruct (seen_in comparator item (Mem.view σ result)) as [[]|]; simpl.
    + unfold Mem.bind at 1. simpl. apply IH; [lia|done..].
    + destruct (append_spec σ0 σ result item Hsub Hwf Hpriv)
        as (σ1 & s1 & Happ & Hsub1 & Hwf1 & Hpriv1 & Hview1).
      unfold Mem.bind at 1. rewrite Happ, <- Hview1. apply IH; [lia|done..].
    + exists σ, Crashes. by split_and!.
Qed.

(** A worker leaves the heap it found as it was and returns a slice of
    its own that holds what the model on values computes. *)
Lemma removeDuplicate_sim σ comparator items :
  Mem.wf σ items →
  ∃ σ' r,
    Mem.removeDuplicate zero growcap items comparator σ = (σ', r)
    ∧ σ ⊆ σ'
    ∧ outcome_rel (Mem.holds σ' (dom σ)) r
        (in_goroutine (removeDuplicate (Mem.view σ items) comparator)).
Proof.
  intros Hitems.
  destruct (removeDuplicate_loop_sim σ comparator items (Mem.slen items) Hitems
              0 σ Mem.nil_slice) as (σ' & r & Hrun & Hsub & Hrel);
    [done|done|apply wf_nil|apply private_nil|].
  exists σ', r. by rewrite drop_0 in Hrel.
Qed.
Lemma shows_mono σ σ' s l : σ ⊆ σ' → Mem.shows σ s l → Mem.shows σ' s l.
Proof.
  intros Hsub [Hwf Hview]. split; [by eapply wf_mono|].
  by rewrite (view_mono σ σ').
Qed.

Lemma len_view σ s : Mem.wf σ s → len (Mem.view σ s) = Mem.len s.
Proof. intros Hwf. unfold len, Mem.len. by rewrite view_length. Qed.

(** A window on a slice, taken inside its length, is a window on the same
    array and shows the same elements as in the model on values. *)
Lemma slice_expr_sim σ s lo hi :
  Mem.wf σ s → (hi ≤ Mem.len s)%Z →
  outcome_rel (Mem.shows σ) (Mem.slice_expr s lo hi)
    (slice_expr (Mem.view σ s) lo hi).
Proof.
  intros Hwf Hhi. pose proof (view_length _ _ Hwf) as Hvlen.
  unfold Mem.slice_expr, slice_expr, len, Mem.len in *. rewrite Hvlen.
  destruct Hwf as [Hle Hb].
  destruct (decide (0 ≤ lo ∧ lo ≤ hi ∧ hi ≤ Z.of_nat (Mem.slen s))%Z) as [Hin|Hout].
  - rewrite decide_True by lia. simpl. split.
    + split; simpl; [lia|]. destruct (Mem.base s) as [a|]; [|lia].
      destruct Hb as (cells & Ha & Hcap). exists cells. split; [done|lia].
    + unfold Mem.view. simpl. destruct (Mem.base s) as [a|]; [|by rewrite drop_nil, take_nil].
      rewrite <- drop_drop.
      generalize (drop (Mem.off s) (default [] (σ !! a))). intros l.
      rewrite !take_drop_commute, take_take. do 2 f_equal. lia.
  - rewrite decide_False by lia. done.
Qed.

Lemma chunks_loop_sim σ s cs fuel : Mem.wf σ s →
  ∀ i (chunks_m : list Mem.slice) (chunks : list (list T)),
    Forall2 (Mem.shows σ) chunks_m chunks →
    outcome_rel (Forall2 (Mem.shows σ))
      (Mem.chunks_loop fuel s cs i chunks_m)
      (chunks_loop fuel (Mem.view σ s) cs i chunks).
Proof.
  intros Hwf. induction fuel as [|fuel IH]; intros i chunks_m chunks Hacc; simpl;
    rewrite (len_view _ _ Hwf); destruct (i <? Mem.len s)%Z; try done.
  set (hi := if (GoInt.add i cs >? Mem.len s)%Z then Mem.len s else GoInt.add i cs).
  assert (hi ≤ Mem.len s)%Z as Hhi by (subst hi; case_match; lia).
  pose proof (slice_expr_sim σ s i hi Hwf Hhi) as Hsim.
  destruct (Mem.slice_expr s i hi) as [c_m| | |],
    (slice_expr (Mem.view σ s) i hi) as [c| | |]; simpl in *; try done.
  apply IH. apply Forall2_app; [done|]. by constructor.
Qed.

Lemma partition_sim σ s w :
  Mem.wf σ s →
  outcome_rel (Forall2 (Mem.shows σ)) (Mem.partition s w)
    (partition (Mem.view σ s) w).
Proof.
  intros Hwf. unfold Mem.partition, partition.
  rewrite (len_view _ _ Hwf), (view_length _ _ Hwf).
  destruct (chunkSize (Mem.len s) w) as [cs| | |]; simpl; try done.
  by apply chunks_loop_sim.
Qed.

(** The order of arrival does not look at the values it orders. *)
Lemma arrivals_Forall2 {A B : Type} (R : A → B → Prop) sched n :
  ∀ step (l1 : list A) (l2 : list B),
    Forall2 R l1 l2 →
    Forall2 R (arrivals sched step n l1) (arrivals sched step n l2).
Proof.
  induction n as [|n IH]; intros step l1 l2 HF; simpl; [done|].
  rewrite <- (Forall2_length _ _ _ HF).
  destruct (l1 !! (sched step `mod` length l1)) as [x|] eqn:Hx.
  - destruct (Forall2_lookup_l _ _ _ _ _ HF Hx) as (y & -> & Hxy).
    constructor; [done|]. apply IH. by apply Forall2_delete.
  - destruct (l2 !! (sched step `mod` length l1)) as [y|] eqn:Hy; [|done].
    destruct (Forall2_lookup_r _ _ _ _ _ HF Hy) as (x & Hx' & _). congruence.
Qed.

(** The workers one after the other: the heap only grows, and each value
    received shows what the worker of the model on values returns. *)
Lemma run_sim σ0 comparator (jobs : list (nat * Mem.slice)) :
  Forall (λ job, Mem.wf σ0 job.2) jobs →
  ∀ σ, σ0 ⊆ σ →
  ∃ σ' r,
    Mem.run zero growcap comparator jobs σ = (σ', r)
    ∧ σ ⊆ σ'
    ∧ outcome_rel
        (Forall2 (λ (rc : Mem.resultChunk) (p : nat * list T),
           Mem.index rc = p.1 ∧ Mem.shows σ' (Mem.data rc) p.2))
        r
        (in_goroutine
           (mapM (λ job : nat * Mem.slice,
                    out ← removeDuplicate (Mem.view σ0 job.2) comparator;
                    Some (job.1, out)) jobs)).
Proof.
  induction 1 as [|job jobs Hjob Hjobs IH]; intros σ Hsub; simpl.
  { exists σ, (Returns []). split_and!; [done..|]. simpl. constructor. }
  destruct (removeDuplicate_sim σ comparator job.2) as (σ1 & r1 & Hrun1 & Hsub1 & Hrel1).
  { by eapply wf_mono. }
  rewrite (view_mono σ0 σ) in Hrel1 by done.
  unfold Mem.bind at 1, Mem.worker. unfold Mem.bind at 1. rewrite Hrun1.
  destruct (removeDuplicate (Mem.view σ0 job.2) comparator) as [out|];
    destruct r1 as [s1| | |]; simpl in Hrel1; try done; simpl; last first.
  { exists σ1, Crashes. by split_and!. }
  destruct (IH σ1) as (σ2 & r2 & Hrun2 & Hsub2 & Hrel2); [by etrans|].
  unfold Mem.ret at 1. unfold Mem.bind at 1. rewrite Hrun2.
  destruct Hrel1 as (Hwf1 & _ & Hview1).
  destruct (mapM _ jobs) as [outs|]; destruct r2 as [received| | |];
    simpl in Hrel2; try done; simpl.
  - exists σ2, (Returns ({| Mem.index := job.1; Mem.data := s1 |} :: received)).
    split_and!; [done|by etrans|]. simpl. constructor; [|done]. simpl.
    split; [done|]. by apply (shows_mono σ1).
  - exists σ2, Crashes. split_and!; [done|by etrans|done].
Qed.
Lemma collect_sim σ (received_m : list Mem.resultChunk)
    (received : list (@resultChunk T)) :
  Forall2 (λ rc r, Mem.index rc = index r ∧ Mem.shows σ (Mem.data rc) (data r))
    received_m received →
  ∀ results_m results,
    Forall2 (Mem.shows σ) results_m results →
    outcome_rel (Forall2 (Mem.shows σ))
      (Mem.collect received_m results_m) (collect received results).
Proof.
  induction 1 as [|rc r received_m received [Hidx Hdata] _ IH];
    intros results_m results Hres; simpl; [done|].
  unfold Mem.store, store. rewrite Hidx, (Forall2_length _ _ _ Hres).
  case_decide; [|done]. simpl. apply IH. by apply Forall2_insert.
Qed.

Variable sched : nat → nat.

(** Fan-out and fan-in: the heap only grows, and the array handed to the
    merge shows, index by index, the array of the model on values. *)
Lemma dispatch_sim σ comparator (chunks_m : list Mem.slice) (chunks : list (list T)) :
  Forall2 (Mem.shows σ) chunks_m chunks →
  ∃ σ' r,
    Mem.dispatch zero growcap sched chunks_m comparator σ = (σ', r)
    ∧ σ ⊆ σ'
    ∧ outcome_rel (Forall2 (Mem.shows σ')) r (dispatch sched chunks comparator).
Proof.
  intros Hchunks. pose proof (Forall2_length _ _ _ Hchunks) as Hlen.
  set (jobs := arrivals sched 0 (length chunks_m) (imap pair chunks_m)).
  assert (jobs ≡ₚ imap pair chunks_m) as Hperm
    by (apply arrivals_Permutation; by rewrite length_imap).
  assert (Forall (λ job : nat * Mem.slice, Mem.wf σ job.2) jobs) as Hjobs.
  { rewrite Hperm. apply Forall_forall. intros [i c_m] [k Hk]%list_elem_of_lookup_1.
    rewrite list_lookup_imap in Hk.
    destruct (chunks_m !! k) as [c|] eqn:Hc; [|done]. injection Hk as <- <-.
    destruct (Forall2_lookup_l _ _ _ _ _ Hchunks Hc) as (l & _ & Hwf & _). done. }
  destruct (run_sim σ comparator jobs Hjobs σ) as (σ' & r & Hrun & Hsub & Hrel); [done|].
  unfold Mem.dispatch, Mem.bind. fold jobs. rewrite Hrun.
  unfold dispatch. destruct (spawn chunks comparator) as [sent|] eqn:Hs.
  - apply spawn_Some in Hs as [Hslen Hall].
    assert (mapM (λ job : nat * Mem.slice,
                    out ← removeDuplicate (Mem.view σ job.2) comparator;
                    Some (job.1, out)) jobs
            = Some ((λ r, (index r, data r)) <$> arrivals sched 0 (length sent) sent))
      as Hmap.
    { apply mapM_Some, Forall2_fmap_r. subst jobs. rewrite Hlen, <- Hslen.
      apply arrivals_Forall2. apply Forall2_same_length_lookup.
      split; [rewrite length_imap; lia|].
      intros i [k c_m] r0. rewrite list_lookup_imap.
      destruct (chunks_m !! i) as [c|] eqn:Hc; [|done]. simpl. intros [= <- <-] Hr0.
      destruct (Forall2_lookup_l _ _ _ _ _ Hchunks Hc) as (l & Hl & _ & Hview).
      destruct (Hall _ _ Hl) as (out & Hout & Hsent).
      rewrite Hr0 in Hsent. injection Hsent as ->. simpl. by rewrite Hview, Hout. }
    rewrite Hmap in Hrel. destruct r as [received_m| | |]; simpl in Hrel; try done.
    exists σ', (Mem.collect received_m (replicate (length chunks_m) Mem.nil_slice)).
    split_and!; [done..|]. apply collect_sim.
    + apply Forall2_fmap_r in Hrel. eapply Forall2_impl; [done|]. by intros ?? [??].
    + rewrite Hlen. apply Forall2_same_length_lookup.
      split; [by rewrite !length_replicate|].
      intros i s0 l [-> _]%lookup_replicate [-> _]%lookup_replicate.
      split; [apply wf_nil|done].
  - apply spawn_None in Hs as (i & chunk & Hc & Hfail).
    destruct (Forall2_lookup_r _ _ _ _ _ Hchunks Hc) as (c_m & Hcm & _ & Hview).
    assert (mapM (λ job : nat * Mem.slice,
                    out ← removeDuplicate (Mem.view σ job.2) comparator;
                    Some (job.1, out)) jobs = None) as Hmap.
    { apply eq_None_not_Some. rewrite mapM_is_Some, Forall_forall.
      intros Hall. destruct (Hall (i, c_m)) as [p Hp].
      - rewrite Hperm. apply list_elem_of_lookup. exists i.
        by rewrite list_lookup_imap, Hcm.
      - simpl in Hp. by rewrite Hview, Hfail in Hp. }
    rewrite Hmap in Hrel. destruct r; simpl in Hrel; try done.
    exists σ', Crashes. by split_and!.
Qed.

Lemma merge_chunk_sim σ0 chunk n : Mem.wf σ0 chunk →
  ∀ j σ (seen : gmap T bool) result,
    j + n = Mem.slen chunk → σ0 ⊆ σ →
    Mem.wf σ result → Mem.private (dom σ0) result →
    ∃ σ' st,
      Mem.merge_chunk zero growcap chunk j n seen result σ = (σ', Returns st)
      ∧ σ0 ⊆ σ' ∧ Mem.wf σ' st.2 ∧ Mem.private (dom σ0) st.2
      ∧ (st.1, Mem.view σ' st.2)
        = merge_chunk (drop j (Mem.view σ0 chunk)) seen (Mem.view σ result).
Proof.
  intros Hchunk. induction n as [|n IH]; intros j σ seen result Hj Hsub Hwf Hpriv; simpl.
  - rewrite drop_ge by (rewrite view_length by done; lia).
    exists σ, (seen, result). by split_and!.
  - destruct (lookup_lt_is_Some_2 (Mem.view σ0 chunk) j) as [item Hitem].
    { rewrite view_length by done. lia. }
    rewrite (drop_S _ _ _ Hitem). simpl.
    unfold Mem.bind at 1. rewrite (load_view σ chunk j item)
      by (by rewrite (view_mono σ0 σ)).
    destruct (negb (default false (seen !! item))).
    + destruct (append_spec σ0 σ result item Hsub Hwf Hpriv)
        as (σ1 & s1 & Happ & Hsub1 & Hwf1 & Hpriv1 & Hview1).
      unfold Mem.bind at 1. rewrite Happ, <- Hview1. apply IH; [lia|done..].
    + apply IH; [lia|done..].
Qed.

Lemma merge_loop_sim σ0 (results_m : list Mem.slice) :
  Forall (Mem.wf σ0) results_m →
  ∀ σ (seen : gmap T bool) result,
    σ0 ⊆ σ → Mem.wf σ result → Mem.private (dom σ0) result →
    ∃ σ' st,
      Mem.merge_loop zero growcap results_m seen result σ = (σ', Returns st)
      ∧ σ0 ⊆ σ' ∧ Mem.wf σ' st.2 ∧ Mem.private (dom σ0) st.2
      ∧ (st.1, Mem.view σ' st.2)
        = merge_loop (Mem.view σ0 <$> results_m) seen (Mem.view σ result).
Proof.
  induction 1 as [|chunk results_m Hchunk _ IH]; intros σ seen result Hsub Hwf Hpriv; simpl.
  - exists σ, (seen, result). by split_and!.
  - destruct (merge_chunk_sim σ0 chunk (Mem.slen chunk) Hchunk 0 σ seen result)
      as (σ1 & [seen1 s1] & Hrun & Hsub1 & Hwf1 & Hpriv1 & Heq); [done..|].
    unfold Mem.bind at 1. rewrite Hrun. rewrite drop_0 in Heq. rewrite <- Heq. simpl.
    by apply IH.
Qed.

(** The merge leaves the heap it found as it was, and its result is a
    slice of its own that holds the list of the model on values. *)
Lemma merge_sim σ (results_m : list Mem.slice) (results : list (list T)) :
  Forall2 (Mem.shows σ) results_m results →
  ∃ σ' out,
    Mem.merge zero growcap results_m σ = (σ', Returns out)
    ∧ σ ⊆ σ' ∧ Mem.holds σ' (dom σ) out (merge results).
Proof.
  intros Hres.
  assert (Forall (Mem.wf σ) results_m) as Hwf.
  { apply Forall_forall. intros s0 [i Hi]%list_elem_of_lookup_1.
    by destruct (Forall2_lookup_l _ _ _ _ _ Hres Hi) as (l & _ & ? & _). }
  assert (Mem.view σ <$> results_m = results) as <-.
  { apply list_eq_same_length with (length results_m);
      [by rewrite (Forall2_length _ _ _ Hres)|by rewrite length_fmap|].
    intros i l1 l2 _. rewrite list_lookup_fmap.
    destruct (results_m !! i) as [s0|] eqn:Hs0; [|done]. simpl. intros [= <-] Hl2.
    destruct (Forall2_lookup_l _ _ _ _ _ Hres Hs0) as (l & Hl & _ & Hview). congruence. }
  destruct (merge_loop_sim σ results_m Hwf σ ∅ Mem.nil_slice)
    as (σ' & [seen' out] & Hrun & Hsub & Hwf' & Hpriv' & Heq);
    [done|apply wf_nil|apply private_nil|].
  exists σ', out. unfold Mem.merge, Mem.bind. rewrite Hrun.
  split_and!; [done..|]. split_and!; [done..|].
  unfold merge. change (Mem.view σ Mem.nil_slice) with (@nil T) in Heq.
  by rewrite <- Heq.
Qed.

Variable NumCPU : positive.

(** The whole call in memory against the call on values. *)
Lemma UniqueByParallel_sim σ s numOfThreads comparator :
  Mem.wf σ s →
  ∃ σ' r,
    Mem.UniqueByParallel zero growcap NumCPU sched s numOfThreads comparator σ = (σ', r)
    ∧ σ ⊆ σ'
    ∧ outcome_rel (Mem.holds σ' (dom σ)) r
        (UniqueByParallel NumCPU sched (Mem.view σ s) numOfThreads comparator).
Proof.
  intros Hwf. unfold Mem.UniqueByParallel, UniqueByParallel.
  rewrite (len_view _ _ Hwf).
  pose proof (partition_sim σ s
    (effectiveThreads NumCPU (Mem.len s) numOfThreads) Hwf) as Hpart.
  unfold Mem.bind at 1, Mem.lift.
  destruct (Mem.partition s _) as [chunks_m| | |],
    (partition (Mem.view σ s) _) as [chunks| | |]; simpl in Hpart; try done; simpl;
    try (eexists _, _; by split_and!).
  destruct (dispatch_sim σ comparator chunks_m chunks Hpart)
    as (σ1 & r1 & Hrun1 & Hsub1 & Hrel1).
  unfold Mem.bind at 1. rewrite Hrun1.
  destruct r1 as [results_m| | |],
    (dispatch sched chunks comparator) as [results| | |]; simpl in Hrel1; try done; simpl;
    try (eexists _, _; by split_and!).
  destruct (merge_sim σ1 results_m results Hrel1) as (σ2 & out & Hrun2 & Hsub2 & Hholds).
  rewrite Hrun2. exists σ2, (Returns out). split_and!; [done|by etrans|]. simpl.
  destruct Hholds as (Hw & Hp & Hv). split_and!; [done| |done].
  eapply private_mono; [|done]. by apply subseteq_dom.
Qed.
End Mem_facts.

(** [C10] The call writes to no array that exists when it starts: each of
    them, the backing array of the input among them, holds the same cells
    afterwards, so the input slice shows the same elements in the same
    order. The slice it returns lies in an array allocated during the call
    and holds the result of the model on values. This holds whichever way
    the call ends. *)
Theorem input_unchanged_result_fresh {T : Type} `{Countable T}
    (zero : T) (growcap : nat → nat) (NumCPU : positive) (sched : nat → nat)
    (σ : Mem.heap T) (s : Mem.slice) (numOfThreads : Z)
    (comparator : comparator_fn T) :
  Mem.wf σ s →
  ∃ (σ' : Mem.heap T) (r : outcome Mem.slice),
    Mem.UniqueByParallel zero growcap NumCPU sched s numOfThreads comparator σ
    = (σ', r)
    ∧ (∀ a cells, σ !! a = Some cells → σ' !! a = Some cells)
    ∧ Mem.view σ' s = Mem.view σ s
    ∧ outcome_rel
        (λ out l, Mem.wf σ' out
                  ∧ (∀ a, Mem.base out = Some a → a ∉ dom σ)
                  ∧ Mem.view σ' out = l)
        r (UniqueByParallel NumCPU sched (Mem.view σ s) numOfThreads comparator).
Proof.
  intros Hwf.
  destruct (UniqueByParallel_sim zero growcap sched NumCPU σ s numOfThreads
              comparator Hwf) as (σ' & r & Hrun & Hsub & Hrel).
  exists σ', r. split_and!; [done| |by apply view_mono|done].
  intros a cells Ha. by eapply lookup_weaken.
Qed.

Lemma input_unchanged_result_fresh_witness :
  Mem.wf example_heap example_slice
  ∧ ∃ (σ' : Mem.heap Z) (r : outcome Mem.slice),
      Mem.UniqueByParallel 0%Z (λ c, 2 * c) 4 (λ k, k) example_slice 2
        (total Z.eqb) example_heap = (σ', r)
      ∧ (∀ a cells, example_heap !! a = Some cells → σ' !! a = Some cells)
      ∧ Mem.view σ' example_slice = Mem.view example_heap example_slice
      ∧ outcome_rel
          (λ out l, Mem.wf σ' out
                    ∧ (∀ a, Mem.base out = Some a → a ∉ dom example_heap)
                    ∧ Mem.view σ' out = l)
          r (UniqueByParallel 4 (λ k, k) (Mem.view example_heap example_slice) 2
               (total Z.eqb)).
Proof.
  assert (Mem.wf example_heap example_slice) as Hwf.
  { split; [simpl; lia|]. simpl. exists [1; 2; 2; 3; 1; 4; 0; 0]%Z.
    split; [reflexivity|simpl; lia]. }
  split; [exact Hwf|].
  exact (input_unchanged_result_fresh 0%Z (λ c, 2 * c) 4 (λ k, k)
           example_heap example_slice 2 (total Z.eqb) Hwf).
Defined.

(** The run of the example: five arrays are allocated by the two workers
    and three by the merge; the array of the input is as it was. *)
Example example_run :
  let '(σ', r) :=
    Mem.UniqueByParallel 0%Z (λ c, 2 * c) 4 (λ k, k) example_slice 2
      (total Z.eqb) example_heap in
  σ' !! 1%positive = Some [1; 2; 2; 3; 1; 4; 0; 0]%Z
  ∧ size σ' = 9
  ∧ outcome_rel (λ out l, Mem.view σ' out = l) r (Returns [1; 2; 3; 4]%Z).
Proof. by vm_compute. Qed.

(** * Further properties of [UniqueByParallel] *)

(** ** More on the chunk deduplicator *)
Section removeDuplicate_more.
Context {T : Type}.
Implicit Types (cmp : T → T → bool) (items result : list T).

Lemma existsb_elem_of cmp x result :
  existsb (cmp x) result = true ↔ ∃ r, r ∈ result ∧ cmp x r = true.
Proof.
  rewrite existsb_exists. split; intros (r & Hr & Hc); exists r;
    (split; [by apply list_elem_of_In|done]).
Qed.

Lemma dedupe_foldl_extends cmp items result :
  ∃ kept, foldl (dedupe_step cmp) result items = result ++ kept
          ∧ sublist kept items.
Proof.
  eapply removeDuplicate_loop_sublist, removeDuplicate_loop_total.
Qed.

(** Every item, and every element kept before, is kept or matches an
    element that is kept. *)
Lemma dedupe_foldl_covers cmp items result x :
  x ∈ result ∨ x ∈ items →
  ∃ y, y ∈ foldl (dedupe_step cmp) result items ∧ (y = x ∨ cmp x y = true).
Proof.
  revert result. induction items as [|item items IH]; intros result; simpl.
  - intros [Hx|Hx]; [|by apply elem_of_nil in Hx]. exists x. by split; [|left].
  - intros [Hx|[->|Hx]%elem_of_cons].
    + apply IH. left. unfold dedupe_step. case_match; [done|].
      apply elem_of_app. by left.
    + unfold dedupe_step at 2.
      destruct (existsb (cmp item) result) eqn:Hex.
      * apply existsb_elem_of in Hex as (r & Hr & Hc).
        destruct (dedupe_foldl_extends cmp items result) as (kept & -> & _).
        exists r. split; [|by right]. apply elem_of_app. by left.
      * apply IH. left. apply elem_of_app. right. by apply list_elem_of_singleton.
    + apply IH. by right.
Qed.

(** No element kept matches one kept before it. *)
Lemma dedupe_foldl_unmatched cmp items result :
  (∀ j y, result !! j = Some y → existsb (cmp y) (take j result) = false) →
  ∀ j y, foldl (dedupe_step cmp) result items !! j = Some y →
         existsb (cmp y) (take j (foldl (dedupe_step cmp) result items)) = false.
Proof.
  revert result. induction items as [|item items IH]; intros result Hinv; simpl; [done|].
  apply IH. unfold dedupe_step. destruct (existsb (cmp item) result) eqn:Hex; [done|].
  intros j y Hj. destruct (decide (j < length result)) as [Hlt|Hge].
  - rewrite lookup_app_l in Hj by done. rewrite take_app_le by lia. by apply Hinv.
  - rewrite lookup_app_r in Hj by lia.
    destruct (j - length result) as [|k] eqn:Hk; [|by destruct k].
    injection Hj as <-. assert (j = length result) as -> by lia.
    by rewrite take_app_length.
Qed.

Lemma dedupeChunk_unmatched cmp items i j x y :
  i < j → dedupeChunk items cmp !! i = Some x →
  dedupeChunk items cmp !! j = Some y → cmp y x = false.
Proof.
  intros Hij Hi Hj.
  assert (existsb (cmp y) (take j (dedupeChunk items cmp)) = false) as Hex.
  { by apply (dedupe_foldl_unmatched cmp items []). }
  destruct (cmp y x) eqn:Hc; [|done].
  assert (existsb (cmp y) (take j (dedupeChunk items cmp)) = true); [|congruence].
  apply existsb_elem_of. exists x. split; [|done].
  apply list_elem_of_lookup. exists i. by rewrite lookup_take_lt.
Qed.

(** A chunk of one element comes back as it is: the comparator is not
    called. *)
Lemma removeDuplicate_singleton (comparator : comparator_fn T) x :
  removeDuplicate [x] comparator = Some [x].
Proof. done. Qed.

(** The counter of calls. *)
Lemma seen_in_calls_spec cmp item result calls :
  (seen_in_calls cmp item result calls).1 = existsb (cmp item) result
  ∧ calls ≤ (seen_in_calls cmp item result calls).2 ≤ calls + length result
  ∧ (existsb (cmp item) result = false →
     (seen_in_calls cmp item result calls).2 = calls + length result)
  ∧ (result ≠ [] → calls < (seen_in_calls cmp item result calls).2).
Proof.
  revert calls. induction result as [|r result IH]; intros calls; simpl.
  - split_and!; [done|lia|lia|lia|done].
  - destruct (cmp item r); simpl.
    + split_and!; [done|lia|lia|done|lia].
    + destruct (IH (S calls)) as (H1 & H2 & H3 & _).
      split_and!; [done|lia|lia| |lia]. intros Hex. rewrite H3 by done. lia.
Qed.

Lemma removeDuplicate_calls_spec cmp items : ∀ result calls,
  (removeDuplicate_calls cmp items result calls).1
  = foldl (dedupe_step cmp) result items
  ∧ 2 * (removeDuplicate_calls cmp items result calls).2 + length items
    ≤ 2 * calls + 2 * length items * length result + length items * length items
  ∧ (result ≠ [] →
     calls + length items ≤ (removeDuplicate_calls cmp items result calls).2)
  ∧ ((∀ x y, cmp x y = false) →
     2 * (removeDuplicate_calls cmp items result calls).2 + length items
     = 2 * calls + 2 * length items * length result + length items * length items).
Proof.
  induction items as [|item items IH]; intros result calls; simpl.
  - split_and!; [done|lia|lia|lia].
  - destruct (seen_in_calls_spec cmp item result calls) as (H1 & H2 & H3 & H4).
    destruct (seen_in_calls cmp item result calls) as [seen calls'] eqn:Hs.
    simpl in *. subst seen.
    change (dedupe_step cmp result item)
      with (if existsb (cmp item) result then result else result ++ [item]).
    destruct (IH (if existsb (cmp item) result then result else result ++ [item]) calls')
      as (IH1 & IH2 & IH3 & IH4).
    assert (length (if existsb (cmp item) result then result else result ++ [item])
            ≤ S (length result)) as Hlen.
    { case_match; [lia|]. rewrite length_app. simpl. lia. }
    split_and!.
    + done.
    + nia.
    + intros Hne. specialize (H4 Hne).
      assert ((if existsb (cmp item) result then result else result ++ [item]) ≠ [])
        as Hne' by (case_match; [done|by destruct result]).
      specialize (IH3 Hne'). lia.
    + intros Hnever. specialize (IH4 Hnever).
      assert (existsb (cmp item) result = false) as Hex.
      { apply not_true_is_false. intros (r & _ & Hc)%existsb_elem_of.
        by rewrite Hnever in Hc. }
      rewrite Hex in *. rewrite length_app in IH4. simpl in IH4.
      specialize (H3 eq_refl). nia.
Qed.
End removeDuplicate_more.

(** ** More on the merge and on the whole call *)
Section UniqueByParallel_more.
Context {T : Type} `{Countable T}.
Implicit Types (cmp : T → T → bool) (slice items result : list T) (marked : gset T).

Lemma emit_emit marked marked' l :
  emit marked (emit marked' l) = emit (marked ∪ marked') l.
Proof.
  revert marked marked'. induction l as [|x l IH]; intros marked marked'; simpl; [done|].
  destruct (decide (x ∈ marked')) as [Hx'|Hx'].
  - rewrite IH, decide_True by set_solver. done.
  - simpl. destruct (decide (x ∈ marked)) as [Hx|Hx].
    + rewrite IH, decide_True by set_solver. f_equal. set_solver.
    + rewrite IH, decide_False by set_solver. do 2 f_equal. set_solver.
Qed.

Lemma list_to_set_emit marked l :
  list_to_set (C := gset T) (emit marked l) ∪ marked = list_to_set l ∪ marked.
Proof.
  apply set_eq. intros x.
  rewrite !elem_of_union, !elem_of_list_to_set, elem_of_emit.
  destruct (decide (x ∈ marked)); tauto.
Qed.

(** Running the pass on every chunk first does not change the pass over
    the whole. *)
Lemma emit_concat_emit marked (chunks : list (list T)) :
  emit marked (concat (emit ∅ <$> chunks)) = emit marked (concat chunks).
Proof.
  revert marked. induction chunks as [|chunk chunks IH]; intros marked; simpl; [done|].
  rewrite !emit_app, emit_emit, IH. f_equal; [f_equal; set_solver|].
  f_equal. pose proof (list_to_set_emit ∅ chunk) as Hset. set_solver.
Qed.

(** With a comparator that decides [==], a worker does what the merge
    does. *)
Lemma dedupe_foldl_eq cmp items result :
  (∀ x y, cmp x y = true ↔ x = y) →
  foldl (dedupe_step cmp) result items
  = result ++ emit (list_to_set result) items.
Proof.
  intros Heq. revert result. induction items as [|item items IH]; intros result; simpl.
  - by rewrite app_nil_r.
  - rewrite IH. unfold dedupe_step.
    destruct (existsb (cmp item) result) eqn:Hex.
    + apply existsb_elem_of in Hex as (r & Hr & ->%Heq).
      by rewrite decide_True by set_solver.
    + assert (item ∉ result) as Hnot.
      { intros Hin. assert (existsb (cmp item) result = true); [|congruence].
        apply existsb_elem_of. exists item. split; [done|by apply Heq]. }
      rewrite decide_False by set_solver. rewrite <- app_assoc. simpl.
      do 3 f_equal. rewrite list_to_set_app_L. set_solver.
Qed.

Lemma dedupeChunk_eq cmp items :
  (∀ x y, cmp x y = true ↔ x = y) → dedupeChunk items cmp = emit ∅ items.
Proof. intros Heq. unfold dedupeChunk. by rewrite dedupe_foldl_eq. Qed.

Lemma effectiveThreads_le NumCPU n numOfThreads :
  (1 ≤ numOfThreads → effectiveThreads NumCPU n numOfThreads ≤ numOfThreads)%Z.
Proof. unfold effectiveThreads. intros. repeat case_match; lia. Qed.

Lemma spawn_unchanged (chunks : list (list T)) (comparator : comparator_fn T) :
  Forall (λ chunk, removeDuplicate chunk comparator = Some chunk) chunks →
  ∃ sent, spawn chunks comparator = Some sent ∧ data <$> sent = chunks.
Proof.
  intros Hall.
  exists (imap (λ i chunk, {| index := i; data := chunk |}) chunks). split.
  - apply spawn_Some. split; [by rewrite length_imap|].
    intros i chunk Hc. exists chunk. split.
    + by eapply (Forall_lookup_1 _ _ _ _ Hall).
    + by rewrite list_lookup_imap, Hc.
  - apply list_eq. intros i. rewrite list_lookup_fmap, list_lookup_imap.
    by destruct (chunks !! i).
Qed.

Variables (NumCPU : positive) (sched : nat → nat).

(** The call with a comparator that does not panic, in one formula. *)
Lemma UniqueByParallel_total_emit slice numOfThreads cmp :
  slice ≠ [] → (len slice < 2 ^ 62)%Z →
  ∃ chunks,
    concat chunks = slice
    ∧ UniqueByParallel NumCPU sched slice numOfThreads (total cmp)
      = Returns (emit ∅ (concat ((λ chunk, dedupeChunk chunk cmp) <$> chunks))).
Proof.
  intros Hne Hn. pose proof (len_pos _ Hne) as H1.
  destruct (effectiveThreads_range NumCPU (len slice) numOfThreads H1) as [Hw _].
  destruct (partition_spec slice _ Hw Hn) as (chunks & Hp & Hcat & _).
  exists chunks. split; [done|]. unfold UniqueByParallel. rewrite Hp.
  unfold mbind, outcome_bind. rewrite dispatch_total.
  by rewrite merge_is_merge_spec.
Qed.

Lemma UniqueByParallel_eq slice numOfThreads cmp :
  slice ≠ [] → (len slice < 2 ^ 62)%Z →
  (∀ x y, cmp x y = true ↔ x = y) →
  UniqueByParallel NumCPU sched slice numOfThreads (total cmp)
  = Returns (emit ∅ slice).
Proof.
  intros Hne Hn Heq.
  destruct (UniqueByParallel_total_emit slice numOfThreads cmp Hne Hn)
    as (chunks & <- & ->).
  f_equal. rewrite <- (emit_concat_emit ∅ chunks). do 2 f_equal.
  apply list_fmap_ext. intros _ chunk _. by apply dedupeChunk_eq.
Qed.

Lemma emit_nonempty (l : list T) : l ≠ [] → emit ∅ l ≠ [].
Proof. destruct l as [|x l]; [done|]. intros _. simpl. by rewrite decide_False by set_solver. Qed.

Lemma emit_len (l : list T) : (len (emit ∅ l) ≤ len l)%Z.
Proof.
  unfold len. pose proof (sublist_length _ _ (emit_sublist ∅ l)). lia.
Qed.
End UniqueByParallel_more.

(** [X1] The outcome of a call is the same in every schedule: the order in
    which the workers deliver their results has no effect on what the call
    returns, nor on whether it panics or crashes. *)
Theorem outcome_independent_of_schedule {T : Type} `{Countable T}
    (NumCPU : positive) (sched sched' : nat → nat) (slice : list T)
    (numOfThreads : Z) (comparator : comparator_fn T) :
  UniqueByParallel NumCPU sched slice numOfThreads comparator
  = UniqueByParallel NumCPU sched' slice numOfThreads comparator.
Proof. apply UniqueByParallel_schedule. Qed.

(** [X2] With a comparator that decides [==], the output on a non-empty
    input is the list of the first occurrences of the input's elements,
    whatever the thread count and the core count. *)
Theorem equality_comparator_first_occurrences {T : Type} `{Countable T}
    (NumCPU : positive) (sched : nat → nat) (slice : list T)
    (numOfThreads : Z) (cmp : T → T → bool) :
  slice ≠ [] → (len slice < 2 ^ 62)%Z →
  (∀ x y, cmp x y = true ↔ x = y) →
  UniqueByParallel NumCPU sched slice numOfThreads (total cmp)
  = Returns (emit ∅ slice).
Proof. apply UniqueByParallel_eq. Qed.

Lemma equality_comparator_first_occurrences_witness :
  ([1; 2; 2; 3; 1; 4]%Z ≠ [] ∧ (len [1; 2; 2; 3; 1; 4]%Z < 2 ^ 62)%Z
   ∧ ∀ x y : Z, (x =? y)%Z = true ↔ x = y)
  ∧ UniqueByParallel 4 (λ k, k) [1; 2; 2; 3; 1; 4]%Z 3 (total Z.eqb)
    = Returns (emit ∅ [1; 2; 2; 3; 1; 4]%Z).
Proof.
  assert ([1; 2; 2; 3; 1; 4]%Z ≠ []) as H1 by discriminate.
  assert (len [1; 2; 2; 3; 1; 4]%Z < 2 ^ 62)%Z as H2 by reflexivity.
  split; [split_and!; [done|done|apply Z.eqb_eq]|].
  exact (equality_comparator_first_occurrences 4 (λ k, k) _ 3 Z.eqb H1 H2 Z.eqb_eq).
Defined.

(** [X3] With a comparator that decides [==], whenever a call returns
    [out]: [out] is empty exactly when the input is; on a non-empty [out]
    a second call, with any thread count, returns [out] unchanged; on the
    empty [out] a second call returns the empty slice when its thread
    count is zero or negative and panics with the division by zero of
    line 46 otherwise. *)
Theorem second_call_with_equality_comparator {T : Type} `{Countable T}
    (NumCPU : positive) (sched : nat → nat) (slice out : list T)
    (numOfThreads numOfThreads' : Z) (cmp : T → T → bool) :
  (len slice < 2 ^ 62)%Z →
  (∀ x y, cmp x y = true ↔ x = y) →
  UniqueByParallel NumCPU sched slice numOfThreads (total cmp) = Returns out →
  (out = [] ↔ slice = [])
  ∧ (out ≠ [] →
     UniqueByParallel NumCPU sched out numOfThreads' (total cmp) = Returns out)
  ∧ (out = [] →
     UniqueByParallel NumCPU sched out numOfThreads' (total cmp)
     = if decide (numOfThreads' ≤ 0)%Z then Returns [] else Panics DivideByZero).
Proof.
  intros Hn Heq Hrun. destruct (decide (slice = [])) as [->|Hne].
  - rewrite UniqueByParallel_empty in Hrun. case_decide; [|done].
    injection Hrun as <-. split_and!; [done|done|].
    intros _. apply UniqueByParallel_empty.
  - rewrite UniqueByParallel_eq in Hrun by done. injection Hrun as <-.
    pose proof (emit_nonempty slice Hne) as Hout. split_and!; [done| |done].
    intros _. rewrite UniqueByParallel_eq; [|done| |done].
    + by rewrite emit_emit, union_empty_l_L.
    + pose proof (emit_len slice). lia.
Qed.

Lemma second_call_with_equality_comparator_witness :
  ((len [1; 2; 2; 3; 1; 4]%Z < 2 ^ 62)%Z
   ∧ (∀ x y : Z, (x =? y)%Z = true ↔ x = y)
   ∧ UniqueByParallel 4 (λ k, k) [1; 2; 2; 3; 1; 4]%Z 3 (total Z.eqb)
     = Returns [1; 2; 3; 4]%Z)
  ∧ ([1; 2; 3; 4]%Z = [] ↔ [1; 2; 2; 3; 1; 4]%Z = [])
  ∧ ([1; 2; 3; 4]%Z ≠ [] →
     UniqueByParallel 4 (λ k, k) [1; 2; 3; 4]%Z 2 (total Z.eqb)
     = Returns [1; 2; 3; 4]%Z)
  ∧ ([1; 2; 3; 4]%Z = [] →
     UniqueByParallel 4 (λ k, k) [1; 2; 3; 4]%Z 2 (total Z.eqb)
     = if decide (2 ≤ 0)%Z then Returns [] else Panics DivideByZero).
Proof.
  assert (len [1; 2; 2; 3; 1; 4]%Z < 2 ^ 62)%Z as H1 by reflexivity.
  assert (UniqueByParallel 4 (λ k, k) [1; 2; 2; 3; 1; 4]%Z 3 (total Z.eqb)
          = Returns [1; 2; 3; 4]%Z) as H2 by (vm_compute; reflexivity).
  split; [split_and!; [done|apply Z.eqb_eq|done]|].
  exact (second_call_with_equality_comparator 4 (λ k, k) _ _ 3 2 Z.eqb H1 Z.eqb_eq H2).
Defined.

(** [X4] No class is lost: on a non-empty input and with a comparator that
    does not panic, every element of the input is in the output or matches,
    under the comparator, an element of the output. *)
Theorem every_element_is_represented {T : Type} `{Countable T}
    (NumCPU : positive) (sched : nat → nat) (slice : list T)
    (numOfThreads : Z) (cmp : T → T → bool) :
  slice ≠ [] → (len slice < 2 ^ 62)%Z →
  ∃ out,
    UniqueByParallel NumCPU sched slice numOfThreads (total cmp) = Returns out
    ∧ ∀ x, x ∈ slice → ∃ y, y ∈ out ∧ (y = x ∨ cmp x y = true).
Proof.
  intros Hne Hn.
  destruct (UniqueByParallel_total_emit NumCPU sched slice numOfThreads cmp Hne Hn)
    as (chunks & <- & ->).
  eexists. split; [done|]. intros x Hx.
  apply list_elem_of_In, in_concat in Hx as (chunk & Hchunk & Hx).
  destruct (dedupe_foldl_covers cmp chunk [] x) as (y & Hy & Hxy).
  { right. by apply list_elem_of_In. }
  exists y. split; [|done]. apply elem_of_emit. split; [|set_solver].
  apply list_elem_of_In, in_concat. exists (dedupeChunk chunk cmp).
  split; [|by apply list_elem_of_In].
  apply list_elem_of_In, list_elem_of_fmap. exists chunk.
  split; [done|by apply list_elem_of_In].
Qed.

Lemma every_element_is_represented_witness :
  (["a"; "b"; "A"]%string ≠ [] ∧ (len ["a"; "b"; "A"]%string < 2 ^ 62)%Z)
  ∧ ∃ out,
      UniqueByParallel 1 (λ k, k) ["a"; "b"; "A"]%string 2 (total equalFold)
      = Returns out
      ∧ ∀ x, x ∈ ["a"; "b"; "A"]%string →
             ∃ y, y ∈ out ∧ (y = x ∨ equalFold x y = true).
Proof.
  assert (["a"; "b"; "A"]%string ≠ []) as H1 by discriminate.
  assert (len ["a"; "b"; "A"]%string < 2 ^ 62)%Z as H2 by reflexivity.
  split; [by split|].
  exact (every_element_is_represented 1 (λ k, k) _ 2 equalFold H1 H2).
Defined.

(** [X5] What a worker returns for its chunk, with a comparator that does
    not panic: a subsequence of the chunk in which no element matches an
    earlier one ([comparator(later, earlier)] is false), and such that
    every element of the chunk is in it or matches one of its elements. *)
Theorem worker_result_is_unmatched_cover {T : Type} (chunk : list T)
    (cmp : T → T → bool) :
  ∃ out,
    removeDuplicate chunk (total cmp) = Some out
    ∧ sublist out chunk
    ∧ (∀ i j x y, i < j → out !! i = Some x → out !! j = Some y →
                  cmp y x = false)
    ∧ (∀ x, x ∈ chunk → ∃ y, y ∈ out ∧ (y = x ∨ cmp x y = true)).
Proof.
  exists (dedupeChunk chunk cmp). split_and!.
  - apply removeDuplicate_total.
  - apply dedupeChunk_sublist.
  - apply dedupeChunk_unmatched.
  - intros x Hx. apply (dedupe_foldl_covers cmp chunk []). by right.
Qed.



(** [X7] When the effective thread count equals the length of a non-empty
    input (as many threads asked for, and as many cores, as elements),
    every chunk holds one element and the comparator is never called: the
    output is the list of first occurrences under [==], also with a
    comparator that would panic at its first call. *)
Theorem one_element_per_chunk_skips_comparator {T : Type} `{Countable T}
    (NumCPU : positive) (sched : nat → nat) (slice : list T)
    (numOfThreads : Z) (comparator : comparator_fn T) :
  slice ≠ [] → (len slice < 2 ^ 62)%Z →
  effectiveThreads NumCPU (len slice) numOfThreads = len slice →
  UniqueByParallel NumCPU sched slice numOfThreads comparator
  = Returns (emit ∅ slice).
Proof.
  intros Hne Hn Hw. pose proof (len_pos _ Hne) as H1.
  destruct (UniqueByParallel_nonempty NumCPU sched slice numOfThreads comparator Hne Hn)
    as (chunks & Hp & ->).
  rewrite Hw in Hp.
  destruct (partition_spec slice (len slice)) as (chunks' & Hp' & Hcat & _ & Hlen & Hidx);
    [lia|done|].
  rewrite Hp in Hp'. injection Hp' as <-.
  assert (ceil_div (len slice) (len slice) = 1%Z) as Hcs by (apply ceil_div_unique; lia).
  rewrite Hcs in Hlen, Hidx.
  assert (ceil_div (len slice) 1 = len slice) as Hk by (apply ceil_div_unique; lia).
  rewrite Hk in Hlen.
  destruct (spawn_unchanged chunks comparator) as (sent & -> & ->).
  { apply Forall_lookup_2. intros j chunk Hj.
    pose proof (lookup_lt_Some _ _ _ Hj) as Hlt.
    apply Hidx, slice_expr_length in Hj.
    destruct chunk as [|x [|x' chunk]]; unfold len in *; simpl in *; [lia|done|lia]. }
  by rewrite merge_is_merge_spec, <- Hcat.
Qed.

Lemma one_element_per_chunk_skips_comparator_witness :
  ([1; 1; 2]%Z ≠ [] ∧ (len [1; 1; 2]%Z < 2 ^ 62)%Z
   ∧ effectiveThreads 4 (len [1; 1; 2]%Z) 3 = len [1; 1; 2]%Z)
  ∧ UniqueByParallel 4 (λ k, k) [1; 1; 2]%Z 3 (λ _ _, None)
    = Returns (emit ∅ [1; 1; 2]%Z).
Proof.
  assert ([1; 1; 2]%Z ≠ []) as H1 by discriminate.
  assert (len [1; 1; 2]%Z < 2 ^ 62)%Z as H2 by reflexivity.
  assert (effectiveThreads 4 (len [1; 1; 2]%Z) 3 = len [1; 1; 2]%Z) as H3
    by reflexivity.
  split; [by split_and!|].
  exact (one_element_per_chunk_skips_comparator 4 (λ k, k) _ 3 (λ _ _, None) H1 H2 H3).
Defined.

(** [X8] On a non-empty input the call starts at least one worker and at
    most as many as there are cores, as there are elements, and, when
    [numOfThreads] is positive, as [numOfThreads]; their number never
    exceeds the capacity [numOfThreads] of the channel, so no worker waits
    to send. *)
Theorem worker_count_is_bounded {T : Type} (NumCPU : positive)
    (slice : list T) (numOfThreads : Z) :
  slice ≠ [] → (len slice < 2 ^ 62)%Z →
  ∃ chunks,
    partition slice (effectiveThreads NumCPU (len slice) numOfThreads)
    = Returns chunks
    ∧ (1 ≤ len chunks)%Z
    ∧ (len chunks ≤ effectiveThreads NumCPU (len slice) numOfThreads)%Z
    ∧ (len chunks ≤ Z.pos NumCPU)%Z
    ∧ (len chunks ≤ len slice)%Z
    ∧ (1 ≤ numOfThreads → len chunks ≤ numOfThreads)%Z.
Proof.
  intros Hne Hn. pose proof (len_pos _ Hne) as H1.
  destruct (effectiveThreads_range NumCPU (len slice) numOfThreads H1) as [Hw Hcpu].
  destruct (partition_spec slice _ Hw Hn) as (chunks & Hp & _ & _ & Hlen & _).
  pose proof (chunk_count_le _ _ Hw) as Hcount. rewrite <- Hlen in Hcount.
  exists chunks. split_and!; [done|lia..|].
  intros Hpos%(effectiveThreads_le NumCPU (len slice)). lia.
Qed.

Lemma worker_count_is_bounded_witness :
  ([1; 2; 3; 4; 5]%Z ≠ [] ∧ (len [1; 2; 3; 4; 5]%Z < 2 ^ 62)%Z)
  ∧ ∃ chunks,
      partition [1; 2; 3; 4; 5]%Z (effectiveThreads 4 (len [1; 2; 3; 4; 5]%Z) 9)
      = Returns chunks
      ∧ (1 ≤ len chunks)%Z
      ∧ (len chunks ≤ effectiveThreads 4 (len [1; 2; 3; 4; 5]%Z) 9)%Z
      ∧ (len chunks ≤ Z.pos 4)%Z
      ∧ (len chunks ≤ len [1; 2; 3; 4; 5]%Z)%Z
      ∧ (1 ≤ 9 → len chunks ≤ 9)%Z.
Proof.
  assert ([1; 2; 3; 4; 5]%Z ≠ []) as H1 by discriminate.
  assert (len [1; 2; 3; 4; 5]%Z < 2 ^ 62)%Z as H2 by reflexivity.
  split; [by split|].
  exact (worker_count_is_bounded 4 [1; 2; 3; 4; 5]%Z 9 H1 H2).
Defined.

(** [X9] On a non-empty input the degenerate thread counts are clamped
    without any other effect: a [numOfThreads] of zero or less behaves as
    1, one above the length as the length, and one above the core count as
    the core count. *)
Theorem clamps_on_nonempty_input {T : Type} `{Countable T}
    (NumCPU : positive) (sched : nat → nat) (slice : list T)
    (numOfThreads : Z) (comparator : comparator_fn T) :
  slice ≠ [] →
  ((numOfThreads ≤ 0)%Z →
     UniqueByParallel NumCPU sched slice numOfThreads comparator
     = UniqueByParallel NumCPU sched slice 1 comparator)
  ∧ ((numOfThreads > len slice)%Z →
     UniqueByParallel NumCPU sched slice numOfThreads comparator
     = UniqueByParallel NumCPU sched slice (len slice) comparator)
  ∧ ((numOfThreads > Z.pos NumCPU)%Z →
     UniqueByParallel NumCPU sched slice numOfThreads comparator
     = UniqueByParallel NumCPU sched slice (Z.pos NumCPU) comparator).
Proof.
  intros Hne%len_pos.
  destruct (effectiveThreads_clamps NumCPU (len slice) numOfThreads) as (H1 & H2 & H3).
  unfold UniqueByParallel. split_and!; intros Hp.
  - by rewrite (H2 Hne Hp).
  - by rewrite (H3 Hne Hp).
  - by rewrite (H1 Hp).
Qed.

Lemma clamps_on_nonempty_input_witness :
  [1; 2; 2; 3]%Z ≠ []
  ∧ (((-2 ≤ 0)%Z →
        UniqueByParallel 2 (λ k, k) [1; 2; 2; 3]%Z (-2) (total Z.eqb)
        = UniqueByParallel 2 (λ k, k) [1; 2; 2; 3]%Z 1 (total Z.eqb))
     ∧ ((-2 > len [1; 2; 2; 3]%Z)%Z →
        UniqueByParallel 2 (λ k, k) [1; 2; 2; 3]%Z (-2) (total Z.eqb)
        = UniqueByParallel 2 (λ k, k) [1; 2; 2; 3]%Z (len [1; 2; 2; 3]%Z) (total Z.eqb))
     ∧ ((-2 > Z.pos 2)%Z →
        UniqueByParallel 2 (λ k, k) [1; 2; 2; 3]%Z (-2) (total Z.eqb)
        = UniqueByParallel 2 (λ k, k) [1; 2; 2; 3]%Z (Z.pos 2) (total Z.eqb))).
Proof.
  assert ([1; 2; 2; 3]%Z ≠ []) as H1 by discriminate.
  split; [done|].
  exact (clamps_on_nonempty_input 2 (λ k, k) [1; 2; 2; 3]%Z (-2) (total Z.eqb) H1).
Defined.

(** [X10] A worker calls the comparator at most [k (k - 1) / 2] times on a
    chunk of [k] elements, and at least [k - 1] times; a comparator that
    never answers true gets all [k (k - 1) / 2] calls. The counter does
    not change what the worker returns. *)
Theorem comparator_calls_are_bounded {T : Type} (chunk : list T)
    (cmp : T → T → bool) :
  removeDuplicate chunk (total cmp)
  = Some (removeDuplicate_calls cmp chunk [] 0).1
  ∧ 2 * (removeDuplicate_calls cmp chunk [] 0).2
    ≤ length chunk * (length chunk - 1)
  ∧ length chunk - 1 ≤ (removeDuplicate_calls cmp chunk [] 0).2
  ∧ ((∀ x y, cmp x y = false) →
     2 * (removeDuplicate_calls cmp chunk [] 0).2
     = length chunk * (length chunk - 1)).
Proof.
  destruct (removeDuplicate_calls_spec cmp chunk [] 0) as (H1 & H2 & _ & H4).
  split_and!.
  - by rewrite H1, removeDuplicate_total.
  - simpl in H2. nia.
  - destruct chunk as [|x chunk]; [simpl; lia|]. simpl.
    destruct (removeDuplicate_calls_spec cmp chunk [x] 0) as (_ & _ & H3 & _).
    specialize (H3 ltac:(done)). lia.
  - intros Hnever. specialize (H4 Hnever). simpl in H4. nia.
Qed.

(** * The package [stream] *)
Section Stream_facts.
Context {T : Type}.
Implicit Types (s : Stream.stream T) (items source : list T).
Implicit Types (predicate p q : T → bool) (mapper f g : T → T).

Lemma Filter_loop_filter p items source :
  Stream.Filter_loop p items source = source ++ List.filter p items.
Proof.
  revert source. induction items as [|v items IH]; intros source; simpl.
  - by rewrite app_nil_r.
  - rewrite IH. destruct (p v); [|done]. by rewrite <- app_assoc.
Qed.

Lemma Filter_source s p :
  Stream.source (Stream.Filter s p) = List.filter p (Stream.source s).
Proof. apply Filter_loop_filter. Qed.

Lemma filter_sublist p items : sublist (List.filter p items) items.
Proof.
  induction items as [|v items IH]; simpl; [done|].
  destruct (p v); [by apply sublist_skip|by apply sublist_cons].
Qed.

Lemma filter_filter_andb p q items :
  List.filter q (List.filter p items) = List.filter (λ x, p x && q x) items.
Proof.
  induction items as [|v items IH]; simpl; [done|].
  destruct (p v) eqn:Hp; simpl; [|done]. rewrite IH. by destruct (q v).
Qed.

Lemma filter_fmap p f items :
  List.filter p (f <$> items) = f <$> List.filter (λ x, p (f x)) items.
Proof.
  induction items as [|v items IH]; csimpl; [done|].
  rewrite IH. by destruct (p (f v)).
Qed.

(** The loop of [Map] from index [i]: the cells from [i] on receive the
    images, the cells before are left alone. *)
Lemma Map_loop_spec f items : ∀ i source,
  i + length items = length source →
  Stream.Map_loop f i items source = Stream.Done (take i source ++ (f <$> items)).
Proof.
  induction items as [|v items IH]; intros i source Hlen; simpl in *.
  - rewrite app_nil_r, take_ge by lia. done.
  - unfold Stream.set_index. rewrite decide_True by lia. simpl.
    rewrite IH by (rewrite length_insert; lia). f_equal.
    rewrite (take_S_r _ _ (f v)) by (apply list_lookup_insert_eq; lia).
    by rewrite take_insert_ge, <- app_assoc by lia.
Qed.

Lemma Map_source zero s f :
  Stream.Map zero s f = Stream.Done (Stream.FromSlice (f <$> Stream.source s)).
Proof.
  unfold Stream.Map. rewrite Map_loop_spec by (by rewrite length_replicate). done.
Qed.
End Stream_facts.

(** [X11] [Filter] returns, in their order, exactly the elements that
    satisfy the predicate: the result is a subsequence of the source, an
    element is in it if and only if it is in the source and satisfies the
    predicate, and it holds every occurrence of such an element. *)
Theorem Filter_keeps_the_matching_elements {T : Type} (s : Stream.stream T)
    (predicate : T → bool) :
  Stream.ToSlice (Stream.Filter s predicate)
  = List.filter predicate (Stream.ToSlice s)
  ∧ sublist (Stream.ToSlice (Stream.Filter s predicate)) (Stream.ToSlice s)
  ∧ (∀ x, x ∈ Stream.ToSlice (Stream.Filter s predicate)
          ↔ x ∈ Stream.ToSlice s ∧ predicate x = true)
  ∧ (Stream.Count (Stream.Filter s predicate) ≤ Stream.Count s)%Z.
Proof.
  unfold Stream.ToSlice, Stream.Count. rewrite Filter_source.
  pose proof (filter_sublist predicate (Stream.source s)) as Hsub.
  split_and!; [done|done| |].
  - intros x. by rewrite !list_elem_of_In, filter_In.
  - apply sublist_length in Hsub. unfold len. lia.
Qed.

(** [X12] Two filters in a row are one filter by the conjunction of the
    predicates, so they can be swapped. *)
Theorem Filter_twice {T : Type} (s : Stream.stream T) (p q : T → bool) :
  Stream.Filter (Stream.Filter s p) q = Stream.Filter s (λ x, p x && q x)
  ∧ Stream.Filter (Stream.Filter s p) q = Stream.Filter (Stream.Filter s q) p.
Proof.
  assert (∀ s1 s2 : Stream.stream T,
            Stream.source s1 = Stream.source s2 → s1 = s2) as Hext.
  { intros [l1] [l2]. simpl. by intros ->. }
  split; apply Hext; rewrite !Filter_source, !filter_filter_andb; [done|].
  apply filter_ext. intros x. apply andb_comm.
Qed.

(** [X13] [Map] never panics and returns a stream of the same length
    whose [i]-th element is the image of the [i]-th element of the source;
    the zero value [make] fills the new slice with does not show. Mapping
    twice is mapping once by the composition. *)
Theorem Map_is_pointwise {T : Type} (zero : T) (s : Stream.stream T)
    (f g : T → T) :
  ∃ s',
    Stream.Map zero s f = Stream.Done s'
    ∧ Stream.Count s' = Stream.Count s
    ∧ (∀ i, Stream.ToSlice s' !! i = f <$> Stream.ToSlice s !! i)
    ∧ Stream.Map zero s' g = Stream.Map zero s (λ x, g (f x)).
Proof.
  exists (Stream.FromSlice (f <$> Stream.source s)). split_and!.
  - apply Map_source.
  - unfold Stream.Count, len. simpl. by rewrite length_fmap.
  - intros i. apply list_lookup_fmap.
  - rewrite !Map_source. simpl. by rewrite <- list_fmap_compose.
Qed.

(** [X14] Filtering after a map is mapping after the filter by the
    predicate composed with the mapper. *)
Theorem Filter_after_Map {T : Type} (zero : T) (s : Stream.stream T)
    (f : T → T) (p : T → bool) :
  Stream.result_bind (Stream.Map zero s f)
    (λ s', Stream.Done (Stream.Filter s' p))
  = Stream.Map zero (Stream.Filter s (λ x, p (f x))) f.
Proof.
  rewrite !Map_source. simpl. unfold Stream.Filter. simpl.
  by rewrite !Filter_loop_filter, filter_fmap.
Qed.

(** ** [Distinct] *)
Section Distinct_facts.
Context {T : Type}.
Implicit Types (s : Stream.stream T) (items source l : list T).
Implicit Types (encode : T → Stream.encoding) (key : T → string).
Implicit Types (seen : gset string) (distinct : gmap string bool).

Lemma Distinct_loop_first_by encode key items : ∀ distinct source,
  (∀ x, x ∈ items → encode x = Stream.Encoded (key x)) →
  Stream.Distinct_loop encode items distinct source
  = Stream.Done (source ++ Stream.first_by key (dom distinct) items).
Proof.
  induction items as [|v items IH]; intros distinct source Hkey; simpl.
  - by rewrite app_nil_r.
  - unfold Stream.hashKey. rewrite (Hkey v) by left. simpl.
    assert (∀ x, x ∈ items → encode x = Stream.Encoded (key x)) as Hkey'
      by (intros x Hx; apply Hkey; by right).
    destruct (distinct !! key v) as [b|] eqn:Hlook.
    + rewrite decide_True by (by eapply elem_of_dom_2). by apply IH.
    + rewrite decide_False by (by apply not_elem_of_dom).
      rewrite IH, dom_insert_L, <- app_assoc by done. done.
Qed.

(** The loop stops at the first element that is not encoded, with what
    [hashKey] does on it. *)
Lemma Distinct_loop_stops encode prefix x rest : ∀ distinct source,
  (∀ y, y ∈ prefix → ∃ k, encode y = Stream.Encoded k) →
  (∀ k, encode x ≠ Stream.Encoded k) →
  Stream.Distinct_loop encode (prefix ++ x :: rest) distinct source
  = Stream.result_bind (Stream.hashKey encode x) (λ _, Stream.Done []).
Proof.
  induction prefix as [|v prefix IH]; intros distinct source Hprefix Hx; simpl.
  - unfold Stream.hashKey. destruct (encode x) as [k| |msg] eqn:Hex; simpl; [|done..].
    by destruct (Hx k).
  - destruct (Hprefix v) as [k Hk]; [left|].
    unfold Stream.hashKey at 1. rewrite Hk. simpl.
    destruct (distinct !! k); apply IH; auto; intros y Hy; apply Hprefix; by right.
Qed.

(** A list is encoded throughout, or has a first element that is not. *)
Lemma first_not_encoded encode l :
  (∀ x, x ∈ l → encode x = Stream.Encoded (Stream.key_of encode x))
  ∨ ∃ prefix x rest,
      l = prefix ++ x :: rest
      ∧ (∀ y, y ∈ prefix → ∃ k, encode y = Stream.Encoded k)
      ∧ (∀ k, encode x ≠ Stream.Encoded k).
Proof.
  induction l as [|v l IH].
  - left. intros x Hx. by apply elem_of_nil in Hx.
  - destruct (encode v) as [k| |msg] eqn:Hv.
    + destruct IH as [Hall|(prefix & x & rest & -> & Hprefix & Hx)].
      * left. intros x [->|Hx]%elem_of_cons; [|by apply Hall].
        unfold Stream.key_of. by rewrite Hv.
      * right. exists (v :: prefix), x, rest. split_and!; [done| |done].
        intros y [->|Hy]%elem_of_cons; [by exists k|by apply Hprefix].
    + right. exists [], v, l. split_and!; [done| |congruence].
      intros y Hy. by apply elem_of_nil in Hy.
    + right. exists [], v, l. split_and!; [done| |congruence].
      intros y Hy. by apply elem_of_nil in Hy.
Qed.

(** When [Distinct] returns, every element was encoded. *)
Lemma Distinct_Done_encoded encode s s' :
  Stream.Distinct encode s = Stream.Done s' →
  ∀ x, x ∈ Stream.source s → encode x = Stream.Encoded (Stream.key_of encode x).
Proof.
  intros Hrun.
  destruct (first_not_encoded encode (Stream.source s))
    as [Hall|(prefix & x & rest & Hsplit & Hprefix & Hx)]; [done|].
  unfold Stream.Distinct in Hrun.
  rewrite Hsplit, (Distinct_loop_stops encode prefix x rest) in Hrun by done.
  unfold Stream.hashKey in Hrun.
  destruct (encode x) as [k| |msg] eqn:Hex; [by destruct (Hx k)|done..].
Qed.

Lemma first_by_sublist key seen l : sublist (Stream.first_by key seen l) l.
Proof.
  revert seen. induction l as [|x l IH]; intros seen; simpl; [done|].
  case_decide; [apply sublist_cons|apply sublist_skip]; apply IH.
Qed.

Lemma elem_of_first_by_key key seen l k :
  k ∈ key <$> Stream.first_by key seen l ↔ k ∈ key <$> l ∧ k ∉ seen.
Proof.
  revert seen. induction l as [|x l IH]; intros seen; csimpl.
  - rewrite elem_of_nil. tauto.
  - case_decide; csimpl.
    + rewrite IH, elem_of_cons. destruct (decide (k = key x)); set_solver.
    + rewrite !elem_of_cons, IH. destruct (decide (k = key x)); set_solver.
Qed.

Lemma first_by_NoDup key seen l : NoDup (key <$> Stream.first_by key seen l).
Proof.
  revert seen. induction l as [|x l IH]; intros seen; csimpl.
  - apply NoDup_nil_2.
  - case_decide; [apply IH|]. csimpl. apply NoDup_cons. split; [|apply IH].
    rewrite elem_of_first_by_key. set_solver.
Qed.

Lemma first_by_first_by key seen seen' l :
  Stream.first_by key seen (Stream.first_by key seen' l)
  = Stream.first_by key (seen ∪ seen') l.
Proof.
  revert seen seen'. induction l as [|x l IH]; intros seen seen'; simpl; [done|].
  destruct (decide (key x ∈ seen')) as [Hx'|Hx'].
  - rewrite IH, decide_True by set_solver. done.
  - simpl. destruct (decide (key x ∈ seen)) as [Hx|Hx].
    + rewrite IH, decide_True by set_solver. f_equal. set_solver.
    + rewrite IH, decide_False by set_solver. do 2 f_equal. set_solver.
Qed.

(** With an injective key, being the first with one's key is being the
    first occurrence. *)
Lemma first_by_emit `{Countable T} key seen (marked : gset T) l :
  (∀ x y, key x = key y → x = y) →
  (∀ x, key x ∈ seen ↔ x ∈ marked) →
  Stream.first_by key seen l = emit marked l.
Proof.
  intros Hinj. revert seen marked.
  induction l as [|x l IH]; intros seen marked Hrel; simpl; [done|].
  destruct (decide (key x ∈ seen)) as [Hx|Hx].
  - rewrite decide_True by (by apply Hrel). by apply IH.
  - rewrite decide_False by (by rewrite <- Hrel). f_equal. apply IH.
    intros y. rewrite !elem_of_union, !elem_of_singleton, Hrel.
    split; intros [Hy|Hy]; auto. left. by subst.
Qed.
End Distinct_facts.

(** [X15] When every element of the stream can be encoded, [Distinct]
    returns, in their order, the elements that are the first with their
    key: a subsequence of the source whose keys are pairwise different and
    in which every element of the source has an element with its key. *)
Theorem Distinct_keeps_first_of_each_key {T : Type}
    (encode : T → Stream.encoding) (key : T → string) (s : Stream.stream T) :
  (∀ x, x ∈ Stream.ToSlice s → encode x = Stream.Encoded (key x)) →
  ∃ s',
    Stream.Distinct encode s = Stream.Done s'
    ∧ Stream.ToSlice s' = Stream.first_by key ∅ (Stream.ToSlice s)
    ∧ sublist (Stream.ToSlice s') (Stream.ToSlice s)
    ∧ NoDup (key <$> Stream.ToSlice s')
    ∧ ∀ x, x ∈ Stream.ToSlice s →
           ∃ y, y ∈ Stream.ToSlice s' ∧ key y = key x.
Proof.
  intros Hkey. exists (Stream.FromSlice (Stream.first_by key ∅ (Stream.source s))).
  unfold Stream.Distinct, Stream.ToSlice in *.
  rewrite (Distinct_loop_first_by encode key) by done. rewrite dom_empty_L. simpl.
  split_and!; [done|done|apply first_by_sublist|apply first_by_NoDup|].
  intros x Hx.
  assert (key x ∈ key <$> Stream.first_by key ∅ (Stream.source s)) as Hin.
  { apply elem_of_first_by_key. split; [|set_solver].
    apply list_elem_of_fmap. by exists x. }
  apply list_elem_of_fmap in Hin as (y & Hy & Hin). by exists y.
Qed.

Lemma Distinct_keeps_first_of_each_key_witness :
  (∀ x, x ∈ Stream.ToSlice (Stream.Of ["a"; "A"; "b"]%string) →
        Stream.Encoded (to_lower x) = Stream.Encoded (to_lower x))
  ∧ ∃ s',
      Stream.Distinct (λ x, Stream.Encoded (to_lower x))
        (Stream.Of ["a"; "A"; "b"]%string)
      = Stream.Done s'
      ∧ Stream.ToSlice s'
        = Stream.first_by to_lower ∅ (Stream.ToSlice (Stream.Of ["a"; "A"; "b"]%string))
      ∧ sublist (Stream.ToSlice s') (Stream.ToSlice (Stream.Of ["a"; "A"; "b"]%string))
      ∧ NoDup (to_lower <$> Stream.ToSlice s')
      ∧ ∀ x, x ∈ Stream.ToSlice (Stream.Of ["a"; "A"; "b"]%string) →
             ∃ y, y ∈ Stream.ToSlice s' ∧ to_lower y = to_lower x.
Proof.
  assert (∀ x, x ∈ Stream.ToSlice (Stream.Of ["a"; "A"; "b"]%string) →
               Stream.Encoded (to_lower x) = Stream.Encoded (to_lower x)) as Hkey
    by reflexivity.
  split; [exact Hkey|].
  exact (Distinct_keeps_first_of_each_key (λ x, Stream.Encoded (to_lower x)) to_lower
           (Stream.Of ["a"; "A"; "b"]%string) Hkey).
Defined.

(** [X16] [Distinct] returns exactly when [Encode] encodes every element
    of the stream. Otherwise it panics at the first element, in the order
    of the stream, that is not encoded: with the message of [hashKey] when
    [Encode] returns an error on it, and with the panic of [Encode] itself
    when [Encode] panics on it. It never ends in a fatal error. *)
Theorem Distinct_panics_at_first_unencoded {T : Type}
    (encode : T → Stream.encoding) (s : Stream.stream T) :
  ((∃ s', Stream.Distinct encode s = Stream.Done s')
   ↔ ∀ x, x ∈ Stream.ToSlice s → ∃ k, encode x = Stream.Encoded k)
  ∧ (∀ msg,
       Stream.Distinct encode s = Stream.Panic msg
       ↔ ∃ prefix x rest,
           Stream.ToSlice s = prefix ++ x :: rest
           ∧ (∀ y, y ∈ prefix → ∃ k, encode y = Stream.Encoded k)
           ∧ (encode x = Stream.EncodeError
              ∧ msg = "stream.hashKey: get hashkey failed"%string
              ∨ encode x = Stream.EncodePanic msg))
  ∧ (∀ msg, Stream.Distinct encode s ≠ Stream.Fatal msg).
Proof.
  unfold Stream.ToSlice.
  assert (∀ prefix x rest,
            Stream.source s = prefix ++ x :: rest →
            (∀ y, y ∈ prefix → ∃ k, encode y = Stream.Encoded k) →
            (∀ k, encode x ≠ Stream.Encoded k) →
            Stream.Distinct encode s
            = match encode x with
              | Stream.EncodePanic msg => Stream.Panic msg
              | _ => Stream.Panic "stream.hashKey: get hashkey failed"
              end) as Hstop.
  { intros prefix x rest Hsplit Hprefix Hx. unfold Stream.Distinct.
    rewrite Hsplit, (Distinct_loop_stops encode prefix x rest) by done.
    unfold Stream.hashKey. destruct (encode x) as [k| |msg] eqn:Hex; [|done..].
    by destruct (Hx k). }
  assert ((∀ x, x ∈ Stream.source s → encode x = Stream.Encoded (Stream.key_of encode x)) →
          Stream.Distinct encode s
          = Stream.Done (Stream.FromSlice
              (Stream.first_by (Stream.key_of encode) ∅ (Stream.source s)))) as Hall.
  { intros Hkey. unfold Stream.Distinct.
    rewrite (Distinct_loop_first_by encode _ _ _ _ Hkey), dom_empty_L. done. }
  destruct (first_not_encoded encode (Stream.source s))
    as [Hkey|(prefix & x & rest & Hsplit & Hprefix & Hx)].
  - rewrite (Hall Hkey). split_and!.
    + split; [|by eexists]. intros _ x Hx. eexists. by apply Hkey.
    + intros msg. split; [done|].
      intros (prefix & x & rest & Hsplit & _ & Hx).
      assert (x ∈ Stream.source s) as Hin
        by (rewrite Hsplit; apply elem_of_app; right; left).
      specialize (Hkey x Hin). destruct Hx as [[Hx _]|Hx]; congruence.
    + done.
  - rewrite (Hstop _ _ _ Hsplit Hprefix Hx). split_and!.
    + split.
      * intros [s' Hs']. by destruct (encode x).
      * intros Henc. destruct (Henc x) as [k Hk]; [|by destruct (Hx k)].
        rewrite Hsplit. apply elem_of_app. right. left.
    + intros msg. split.
      * intros Hmsg. exists prefix, x, rest. split_and!; [done..|].
        destruct (encode x) as [k| |msg'] eqn:Hex; [by destruct (Hx k)| |].
        -- left. split; [done|congruence].
        -- right. congruence.
      * intros (prefix' & x' & rest' & Hsplit' & Hprefix' & Hx').
        assert (∀ k, encode x' ≠ Stream.Encoded k) as Hx'n
          by (intros k; destruct Hx' as [[Hx' _]|Hx']; congruence).
        rewrite <- (Hstop _ _ _ Hsplit Hprefix Hx), (Hstop _ _ _ Hsplit' Hprefix' Hx'n).
        destruct Hx' as [[-> ->]| ->]; done.
    + intros msg. by destruct (encode x).
Qed.

(** [X17] [Distinct] applied to its own result returns it unchanged. *)
Theorem Distinct_twice {T : Type} (encode : T → Stream.encoding)
    (s s' : Stream.stream T) :
  Stream.Distinct encode s = Stream.Done s' →
  Stream.Distinct encode s' = Stream.Done s'.
Proof.
  intros Hrun. pose proof (Distinct_Done_encoded encode s s' Hrun) as Hkey.
  unfold Stream.Distinct in *.
  rewrite (Distinct_loop_first_by encode _ _ _ _ Hkey), dom_empty_L in Hrun.
  simpl in Hrun. injection Hrun as <-. simpl.
  rewrite (Distinct_loop_first_by encode (Stream.key_of encode)).
  - rewrite dom_empty_L, first_by_first_by, union_empty_l_L. done.
  - intros x Hx. apply Hkey. eapply elem_of_sublist; [done|]. apply first_by_sublist.
Qed.

Lemma Distinct_twice_witness :
  Stream.Distinct (λ x, Stream.Encoded (to_lower x)) (Stream.Of ["a"; "A"; "b"]%string)
  = Stream.Done (Stream.Of ["a"; "b"]%string)
  ∧ Stream.Distinct (λ x, Stream.Encoded (to_lower x)) (Stream.Of ["a"; "b"]%string)
    = Stream.Done (Stream.Of ["a"; "b"]%string).
Proof.
  assert (Stream.Distinct (λ x, Stream.Encoded (to_lower x))
            (Stream.Of ["a"; "A"; "b"]%string)
          = Stream.Done (Stream.Of ["a"; "b"]%string)) as Hrun
    by (vm_compute; reflexivity).
  split; [exact Hrun|].
  exact (Distinct_twice (λ x, Stream.Encoded (to_lower x)) _ _ Hrun).
Defined.

(** [X18] When the encoding is injective, [Distinct] returns the first
    occurrences of the elements under [==]: on a non-empty slice, the list
    [UniqueByParallel] returns with a comparator that decides [==]. *)
Theorem Distinct_agrees_with_UniqueByParallel {T : Type} `{Countable T}
    (NumCPU : positive) (sched : nat → nat) (slice : list T)
    (numOfThreads : Z) (cmp : T → T → bool) (key : T → string) :
  slice ≠ [] → (len slice < 2 ^ 62)%Z →
  (∀ x y, cmp x y = true ↔ x = y) →
  (∀ x y, key x = key y → x = y) →
  ∃ out,
    UniqueByParallel NumCPU sched slice numOfThreads (total cmp) = Returns out
    ∧ Stream.Distinct (λ x, Stream.Encoded (key x)) (Stream.FromSlice slice)
      = Stream.Done (Stream.FromSlice out).
Proof.
  intros Hne Hn Heq Hinj. exists (emit ∅ slice).
  split; [by apply UniqueByParallel_eq|].
  unfold Stream.Distinct. simpl.
  rewrite (Distinct_loop_first_by _ key) by done. rewrite dom_empty_L. simpl.
  do 2 f_equal. apply first_by_emit; [done|]. set_solver.
Qed.

Lemma Distinct_agrees_with_UniqueByParallel_witness :
  (["b"; "a"; "b"]%string ≠ [] ∧ (len ["b"; "a"; "b"]%string < 2 ^ 62)%Z
   ∧ (∀ x y : string, bool_decide (x = y) = true ↔ x = y)
   ∧ (∀ x y : string, id x = id y → x = y))
  ∧ ∃ out,
      UniqueByParallel 2 (λ k, k) ["b"; "a"; "b"]%string 2
        (total (λ x y, bool_decide (x = y))) = Returns out
      ∧ Stream.Distinct (λ x, Stream.Encoded (id x))
          (Stream.FromSlice ["b"; "a"; "b"]%string)
        = Stream.Done (Stream.FromSlice out).
Proof.
  assert (["b"; "a"; "b"]%string ≠ []) as H1 by discriminate.
  assert (len ["b"; "a"; "b"]%string < 2 ^ 62)%Z as H2 by reflexivity.
  assert (∀ x y : string, bool_decide (x = y) = true ↔ x = y) as H3
    by (intros x y; apply bool_decide_eq_true).
  assert (∀ x y : string, id x = id y → x = y) as H4 by (intros x y Hxy; exact Hxy).
  split; [by split_and!|].
  exact (Distinct_agrees_with_UniqueByParallel 2 (λ k, k) _ 2 _ id H1 H2 H3 H4).
Defined.

(** ** [FromRange] *)
Section FromRange_facts.
Local Open Scope Z_scope.

(** The loop from index [i], as long as no sum or product leaves the range
    of [int]. *)
Lemma FromRange_loop_spec start step d n : ∀ i source,
  0 ≤ step → 0 ≤ d ≤ GoInt.max_int →
  GoInt.min_int ≤ start → start + d ≤ GoInt.max_int →
  0 ≤ i → (i + Z.of_nat n - 1) * step ≤ d → i + Z.of_nat n ≤ GoInt.max_int →
  (Z.to_nat i + n)%nat = length source →
  Stream.FromRange_loop n start step i source
  = Stream.Done (take (Z.to_nat i) source
                 ++ ((λ k : nat, start + (i + Z.of_nat k) * step) <$> seq 0 n)).
Proof.
  intros i source Hstep Hd Hstart Hend. revert i source.
  induction n as [|n IH]; intros i source Hi Hlast Hmax Hlen; simpl.
  - rewrite app_nil_r, take_ge by lia. done.
  - unfold Stream.set_index. rewrite decide_True by lia. simpl.
    assert (0 ≤ i * step ≤ d) as Hprod by nia.
    unfold Stream.int_mul. rewrite wrap_small by (unfold GoInt.min_int, GoInt.max_int in *; lia).
    rewrite !add_small by (unfold GoInt.min_int, GoInt.max_int in *; lia).
    rewrite IH; [|lia|nia|lia|rewrite length_insert; lia].
    f_equal. replace (Z.to_nat (i + 1)) with (S (Z.to_nat i)) by lia.
    rewrite (take_S_r _ _ (start + i * step)) by (apply list_lookup_insert_eq; lia).
    rewrite take_insert_ge, <- app_assoc by lia. f_equal. simpl.
    rewrite Z.add_0_r. f_equal. rewrite <- fmap_S_seq, <- list_fmap_compose.
    apply list_fmap_ext. intros _ k _. simpl. f_equal. lia.
Qed.

(** The length [FromRange] asks [make] for, when the subtraction and the
    addition of one stay in the range of [int]. *)
Lemma FromRange_length maxlen room start end_ step :
  GoInt.min_int ≤ start → end_ ≤ GoInt.max_int →
  start ≤ end_ → 0 < step → end_ - start < GoInt.max_int →
  Stream.FromRange maxlen room start end_ step
  = Stream.result_bind (Stream.make_int maxlen room ((end_ - start) / step + 1))
      (λ source,
       Stream.result_bind
         (Stream.FromRange_loop (Z.to_nat ((end_ - start) / step + 1))
            start step 0 source)
         (λ source, Stream.Done (Stream.FromSlice source))).
Proof.
  intros Hstart Hend Hle Hstep Hd.
  assert (0 ≤ (end_ - start) / step ≤ end_ - start) as Hq.
  { split; [apply Z.div_pos; lia|]. apply Z.div_le_upper_bound; nia. }
  unfold Stream.FromRange.
  destruct (Z.ltb_spec end_ start); [lia|]. destruct (Z.leb_spec step 0); [lia|].
  rewrite sub_small by (unfold GoInt.min_int, GoInt.max_int in *; lia).
  rewrite Z.quot_div_nonneg by lia.
  rewrite wrap_small by (unfold GoInt.min_int, GoInt.max_int in *; lia).
  rewrite add_small by (unfold GoInt.min_int, GoInt.max_int in *; lia).
  done.
Qed.
End FromRange_facts.

(** [X19] [FromRange] at [int], when [start <= end], [step > 0] and
    [end - start] is below the largest [int], asks [make] for
    [(end - start) / step + 1] elements. When that length is within what
    the runtime accepts and the system can provide, it returns the
    progression [start, start + step, ...] of that many elements; all of
    them lie between [start] and [end], the first is [start] and the last
    is above [end - step]. When the length is above what the runtime
    accepts, the call panics in [make]; when it is accepted and the system
    cannot provide it, the program ends with a fatal error. *)
Theorem FromRange_is_the_progression (maxlen room : positive)
    (start end_ step : Z) :
  (GoInt.min_int ≤ start)%Z → (end_ ≤ GoInt.max_int)%Z →
  (start ≤ end_)%Z → (0 < step)%Z → (end_ - start < GoInt.max_int)%Z →
  ((end_ - start) / step + 1 ≤ Z.pos maxlen →
   (end_ - start) / step + 1 ≤ Z.pos room →
   ∃ s,
     Stream.FromRange maxlen room start end_ step = Stream.Done s
     ∧ Stream.Count s = (end_ - start) / step + 1
     ∧ Stream.ToSlice s
       = (λ k : nat, start + Z.of_nat k * step)
           <$> seq 0 (Z.to_nat ((end_ - start) / step + 1))
     ∧ Forall (λ x, start ≤ x ≤ end_) (Stream.ToSlice s)
     ∧ Stream.ToSlice s !! 0%nat = Some start
     ∧ ∀ x, last (Stream.ToSlice s) = Some x → end_ - step < x)%Z
  ∧ (Z.pos maxlen < (end_ - start) / step + 1 →
     Stream.FromRange maxlen room start end_ step
     = Stream.Panic "makeslice: len out of range")%Z
  ∧ ((end_ - start) / step + 1 ≤ Z.pos maxlen →
     Z.pos room < (end_ - start) / step + 1 →
     Stream.FromRange maxlen room start end_ step
     = Stream.Fatal "runtime: out of memory")%Z.
Proof.
  intros Hstart Hend Hle Hstep Hd.
  rewrite (FromRange_length maxlen room) by done.
  set (d := (end_ - start)%Z). set (q := (d / step)%Z).
  assert (0 ≤ q ≤ d)%Z as Hq.
  { subst q. split; [apply Z.div_pos; lia|]. apply Z.div_le_upper_bound; nia. }
  assert (q * step ≤ d < (q + 1) * step)%Z as Hqd.
  { subst q. pose proof (Z.div_mod d step). pose proof (Z.mod_pos_bound d step). nia. }
  unfold Stream.make_int. destruct (Z.ltb_spec (q + 1) 0); [lia|]. simpl.
  split_and!.
  - intros Hmax Hroom.
    destruct (Z.ltb_spec (Z.pos maxlen) (q + 1)); [lia|].
    destruct (Z.ltb_spec (Z.pos room) (q + 1)); [lia|]. simpl.
    rewrite (FromRange_loop_spec start step d);
      [|first [ lia | (unfold d in *; lia) | (by rewrite length_replicate)
              | (rewrite Z2Nat.id by lia; lia) ]..].
    eexists. split; [done|]. unfold Stream.ToSlice, Stream.Count. simpl.
    split_and!.
    + unfold len. rewrite length_fmap, length_seq. lia.
    + done.
    + apply Forall_forall. intros x (k & -> & Hk)%list_elem_of_fmap.
      apply elem_of_seq in Hk. unfold d in *. nia.
    + rewrite list_lookup_fmap, lookup_seq_lt by lia. simpl. f_equal. lia.
    + intros x. rewrite last_lookup, length_fmap, length_seq, list_lookup_fmap.
      rewrite lookup_seq_lt by lia. simpl. intros [= <-]. unfold d in *. nia.
  - intros Hmax. by destruct (Z.ltb_spec (Z.pos maxlen) (q + 1)); [|lia].
  - intros Hmax Hroom. destruct (Z.ltb_spec (Z.pos maxlen) (q + 1)); [lia|].
    by destruct (Z.ltb_spec (Z.pos room) (q + 1)); [|lia].
Qed.

Lemma FromRange_is_the_progression_witness :
  ((GoInt.min_int ≤ 1)%Z ∧ (10 ≤ GoInt.max_int)%Z ∧ (1 ≤ 10)%Z ∧ (0 < 4)%Z
   ∧ (10 - 1 < GoInt.max_int)%Z)
  ∧ ((10 - 1) / 4 + 1 ≤ Z.pos 1024 →
     (10 - 1) / 4 + 1 ≤ Z.pos 64 →
     ∃ s,
       Stream.FromRange 1024 64 1 10 4 = Stream.Done s
       ∧ Stream.Count s = (10 - 1) / 4 + 1
       ∧ Stream.ToSlice s
         = (λ k : nat, 1 + Z.of_nat k * 4) <$> seq 0 (Z.to_nat ((10 - 1) / 4 + 1))
       ∧ Forall (λ x, 1 ≤ x ≤ 10) (Stream.ToSlice s)
       ∧ Stream.ToSlice s !! 0%nat = Some 1
       ∧ ∀ x, last (Stream.ToSlice s) = Some x → 10 - 4 < x)%Z
  ∧ (Z.pos 1024 < (10 - 1) / 4 + 1 →
     Stream.FromRange 1024 64 1 10 4 = Stream.Panic "makeslice: len out of range")%Z
  ∧ ((10 - 1) / 4 + 1 ≤ Z.pos 1024 →
     Z.pos 64 < (10 - 1) / 4 + 1 →
     Stream.FromRange 1024 64 1 10 4 = Stream.Fatal "runtime: out of memory")%Z.
Proof.
  assert (GoInt.min_int ≤ 1)%Z as H1 by (vm_compute; discriminate).
  assert (10 ≤ GoInt.max_int)%Z as H2 by (vm_compute; discriminate).
  assert (1 ≤ 10)%Z as H3 by (vm_compute; discriminate).
  assert (0 < 4)%Z as H4 by reflexivity.
  assert (10 - 1 < GoInt.max_int)%Z as H5 by reflexivity.
  split; [by split_and!|].
  exact (FromRange_is_the_progression 1024 64 1 10 4 H1 H2 H3 H4 H5).
Defined.

(** The three cases on small numbers: the progression, the refusal of
    [make], and the fatal error. *)
Example FromRange_cases :
  Stream.FromRange 1024 64 1 10 4 = Stream.Done (Stream.FromSlice [1; 5; 9]%Z)
  ∧ Stream.FromRange 4 64 0 9 1 = Stream.Panic "makeslice: len out of range"
  ∧ Stream.FromRange 1024 4 0 9 1 = Stream.Fatal "runtime: out of memory".
Proof. by vm_compute. Qed.

(** [X20] What [FromRange] at [int] does outside that case. It panics with
    the message of its first check when [end < start], also with a step
    that is not positive, and with the message of its second check when
    [start <= end] and the step is not positive. When [end - start]
    exceeds the largest [int], the subtraction wraps around to a negative
    number: the call then panics in [make] or returns a stream of at most
    one element, not the progression. *)
Theorem FromRange_rejects_and_wraps (maxlen room : positive)
    (start end_ step : Z) :
  ((end_ < start)%Z →
   Stream.FromRange maxlen room start end_ step
   = Stream.Panic "stream.FromRange: param start should be before param end")
  ∧ ((start ≤ end_)%Z → (step ≤ 0)%Z →
     Stream.FromRange maxlen room start end_ step
     = Stream.Panic "stream.FromRange: param step should be positive")
  ∧ ((GoInt.min_int ≤ start)%Z → (end_ ≤ GoInt.max_int)%Z → (0 < step)%Z →
     (GoInt.max_int < end_ - start)%Z →
     Stream.FromRange maxlen room start end_ step
     = Stream.Panic "makeslice: len out of range"
     ∨ ∃ s, Stream.FromRange maxlen room start end_ step = Stream.Done s
            ∧ (Stream.Count s ≤ 1)%Z).
Proof.
  unfold Stream.FromRange. split_and!.
  - intros Hlt. by destruct (Z.ltb_spec end_ start); [|lia].
  - intros Hle Hstep. destruct (Z.ltb_spec end_ start); [lia|].
    by destruct (Z.leb_spec step 0); [|lia].
  - intros Hstart Hend Hstep Hover.
    destruct (Z.ltb_spec end_ start); [unfold GoInt.min_int, GoInt.max_int in *; lia|].
    destruct (Z.leb_spec step 0); [lia|].
    assert (GoInt.sub end_ start = end_ - start - 2 ^ 64)%Z as ->.
    { unfold GoInt.sub, GoInt.wrap, GoInt.min_int, GoInt.max_int in *.
      replace (end_ - start + 2 ^ 63)%Z with (end_ - start - 2 ^ 63 + 1 * 2 ^ 64)%Z by lia.
      rewrite Z.mod_add, Z.mod_small by lia. lia. }
    set (d := (end_ - start - 2 ^ 64)%Z).
    assert (GoInt.min_int ≤ d ≤ -1)%Z as Hd
      by (unfold d, GoInt.min_int, GoInt.max_int in *; lia).
    assert (d ≤ d ÷ step ≤ 0)%Z as Hq.
    { rewrite <- (Z.opp_involutive d), Z.quot_opp_l by lia.
      rewrite Z.quot_div_nonneg by lia.
      pose proof (Z.div_pos (- d) step). pose proof (Z.div_le_upper_bound (- d) step (- d)).
      nia. }
    rewrite wrap_small by (unfold GoInt.min_int, GoInt.max_int in *; lia).
    rewrite add_small by (unfold GoInt.min_int, GoInt.max_int in *; lia).
    unfold Stream.make_int.
    destruct (Z.ltb_spec (d ÷ step + 1) 0); [by left|]. right.
    destruct (Z.ltb_spec (Z.pos maxlen) (d ÷ step + 1)); [lia|].
    destruct (Z.ltb_spec (Z.pos room) (d ÷ step + 1)); [lia|].
    assert (d ÷ step + 1 = 0 ∨ d ÷ step + 1 = 1)%Z as [->| ->] by lia; simpl.
    + eexists. split; [done|]. by vm_compute.
    + eexists. unfold Stream.set_index. simpl. split; [done|]. by vm_compute.
Qed.
